(** * FileConverter: batching scheduler and conversion dispatch

    A shallow embedding of [file_converter.py]: the text and path
    operations the dispatcher relies on, the format tables, the
    conversion strategies over an interface of external collaborators,
    and the debounced batch scheduler. *)

From Stdlib Require Import ZArith Ascii String Floats.PrimFloat.
From stdpp Require Import gmap strings list.

Local Open Scope string_scope.

(** ** Text

    Characters are code points below 256; [lower] is [str.lower] on
    them: A-Z and the Latin-1 capitals (except the multiplication sign)
    move up by 32. *)

Module Text.

Definition lower_char (c : ascii) : ascii :=
  let n := nat_of_ascii c in
  if (((65 <=? n) && (n <=? 90))
      || ((192 <=? n) && (n <=? 222) && negb (n =? 215)))%nat
  then ascii_of_nat (n + 32)
  else c.

Fixpoint lower (s : string) : string :=
  match s with
  | EmptyString => EmptyString
  | String c r => String (lower_char c) (lower r)
  end.

(** [s[1:]] *)
Definition drop1 (s : string) : string :=
  match s with
  | EmptyString => EmptyString
  | String _ r => r
  end.

(** [ch in s] *)
Fixpoint contains (ch : ascii) (s : string) : bool :=
  match s with
  | EmptyString => false
  | String c r => if Ascii.eqb c ch then true else contains ch r
  end.

(** [s.startswith(ch)] for a one-character prefix. *)
Definition starts_with (ch : ascii) (s : string) : bool :=
  match s with
  | String c _ => Ascii.eqb c ch
  | EmptyString => false
  end.

(** [not s] on a string: the empty string is falsy. *)
Definition is_empty (s : string) : bool :=
  match s with
  | EmptyString => true
  | String _ _ => false
  end.

End Text.

(** ** Paths

    A path is the text of its normal form, without a trailing
    separator.  The host is Windows (the module imports [msvcrt]), so
    both separators split components. *)

Module PathLib.

Definition Path := string.

Definition sep : ascii := "\".
Definition altsep : ascii := "/".

Definition is_sep (c : ascii) : bool := Ascii.eqb c sep || Ascii.eqb c altsep.

(** The text has a separator in it. *)
Fixpoint has_sep (s : string) : bool :=
  match s with
  | EmptyString => false
  | String c r => is_sep c || has_sep r
  end.

(** The final component: what follows the last separator. *)
Fixpoint name_from (cur : string) (s : string) : string :=
  match s with
  | EmptyString => cur
  | String c r => if is_sep c then name_from r r else name_from cur r
  end.

Definition name (p : Path) : string := name_from p p.

(** [s.rfind('.')] as a split: the text before the last dot and the
    text after it. *)
Fixpoint rsplit_dot (s : string) : option (string * string) :=
  match s with
  | EmptyString => None
  | String c r =>
      match rsplit_dot r with
      | Some (b, a) => Some (String c b, a)
      | None => if Ascii.eqb c "." then Some (EmptyString, r) else None
      end
  end.

(** [PurePath.suffix]: [name[i:]] when [0 < i < len(name) - 1] for the
    last dot [i], else the empty string. *)
Definition suffix_of_name (n : string) : string :=
  match rsplit_dot n with
  | Some (b, a) =>
      if Text.is_empty b || Text.is_empty a then EmptyString
      else String "." a
  | None => EmptyString
  end.

Definition suffix (p : Path) : string := suffix_of_name (name p).

(** The path without its last [n] characters. *)
Definition drop_end (n : nat) (s : string) : string :=
  String.substring 0 (String.length s - n) s.

(** [PurePath.with_suffix]; [None] is its [ValueError]. *)
Definition with_suffix (p : Path) (sfx : string) : option Path :=
  if Text.contains sep sfx || Text.contains altsep sfx then None
  else if (negb (Text.is_empty sfx) && negb (Text.starts_with "." sfx))
          || String.eqb sfx "." then None
  else if Text.is_empty (name p) then None
  else Some (drop_end (String.length (suffix p)) p ++ sfx).

End PathLib.

(** ** Exceptions, log records and external invocations *)

Import PathLib.

(** A conversion request: [(file_path, output_format)]. *)
Definition request : Type := Path * option string.

(** The [ValueError]s of the module, by message. *)
Inductive value_error :=
| FFmpegNotFound          (* "FFmpeg binary not found or not working" *)
| FFprobeNotFound         (* "FFprobe binary not found or not working" *)
| InvalidSuffix (sfx : string)             (* raised by [with_suffix] *)
| UnsupportedImageOutput (fmt : string)
| UnsupportedAudioOutput (fmt : string)
| UnsupportedVideoOutput (fmt : string)
| UnsupportedInput (fmt : string)
| DurationExceeded (actual maximum : float).

Inductive exn :=
| AttributeError          (* 'NoneType' object has no attribute 'lower' *)
| KeyError (key : string)
| ValueError (v : value_error)
| FFmpegError (stderr : string)       (* Exception("FFmpeg error: ...") *)
| FFprobeError (stderr : string)      (* Exception("FFprobe error: ...") *)
| ExternalError (msg : string).       (* raised inside a collaborator *)

Inductive level := INFO | WARNING | ERROR.

(** One record per logging call of the module; the fields are the values
    interpolated into its message. *)
Inductive message :=
| MsgAdded (p : Path) (fmt : option string)
| MsgUnsupportedFile (p : Path)
| MsgProcessingBatch (n : nat)
| MsgErrorConverting (p : Path) (e : exn)
| MsgSuccessCount (n : nat)
| MsgFailCount (n : nat)
| MsgSkipping (p : Path)
| MsgFailedToConvert (p : Path) (e : exn)
| MsgConverted (src dst : Path)
| MsgConvertedGif (src dst : Path)
| MsgAudioError (e : exn)
| MsgDurationError (e : exn)
| MsgGifError (e : exn)
| MsgVideoError (e : exn).

Record CompletedProcess := mkCompleted {
  returncode : Z;
  stdout : string;
  stderr : string
}.

(** What leaves the process: child processes, temporary directories and
    the image library's file access. *)
Inductive call :=
| CallSubprocess (cmd : list string)
| CallMkdtemp
| CallRmtree (dir : string)
| CallImageOpen (p : Path)
| CallImageSave (p : Path) (fmt : string) (sizes : option (list (nat * nat))).

(** The collaborators, over a world [W] they act on; [Img] is the image
    library's bitmap.  One that fails gives the text of its exception. *)
Class Externals (W : Type) := {
  Img : Type;
  resolve : Path → W → string;                       (* str(p.resolve()) *)
  subprocess_run : list string → W → (string + CompletedProcess) * W;
  json_duration : string → string + float;
      (* float(json.loads(s)['format']['duration']) *)
  mkdtemp : W → (string + string) * W;
  rmtree : string → W → (string + unit) * W;
  image_open : Path → W → string + Img;
  image_mode : Img → string;
  image_convert : string → Img → Img;
  image_resize : nat * nat → Img → Img;
  image_size : Img → nat * nat;
  image_save : Img → Path → string → option (list (nat * nat)) → W
               → (string + unit) * W;
  (* the order in which a set of requests is iterated *)
  set_iter : gset request → list request;
  set_iter_perm : ∀ s, set_iter s ≡ₚ elements s
}.

(** ** The interpreter state and its monad *)

Section Monad.
Context {W : Type}.

Record St := mkSt {
  world : W;
  log : list (level * message);
  history : list call
}.

Definition M (A : Type) : Type := St → (exn + A) * St.

Definition ret {A} (a : A) : M A := fun s => (inr a, s).
Definition raise {A} (e : exn) : M A := fun s => (inl e, s).
Definition bind {A B} (m : M A) (k : A → M B) : M B :=
  fun s => match m s with
           | (inr a, s') => k a s'
           | (inl e, s') => (inl e, s')
           end.

(** [try: m  except Exception as e: h e] *)
Definition try_except {A} (m : M A) (h : exn → M A) : M A :=
  fun s => match m s with
           | (inl e, s') => h e s'
           | r => r
           end.

Definition logging (l : level) (m : message) : M unit :=
  fun s => (inr tt, mkSt (world s) (log s ++ [(l, m)]) (history s)).

(** [try: m  except Exception as e: logging.error(msg e); raise] *)
Definition logged {A} (msg : exn → message) (m : M A) : M A :=
  try_except m (fun e => bind (logging ERROR (msg e)) (fun _ => raise e)).

(** What a collaborator raises reaches the module as an exception. *)
Definition external {A} (r : string + A) : exn + A :=
  match r with
  | inl msg => inl (ExternalError msg)
  | inr a => inr a
  end.

(** An invocation [c] whose effect on the world is [f]. *)
Definition invoke {A} (c : call) (f : W → (string + A) * W) : M A :=
  fun s => let '(r, w') := f (world s) in
           (external r, mkSt w' (log s) (history s ++ [c])).

Definition read_world {A} (f : W → A) : M A := fun s => (inr (f (world s)), s).

End Monad.

Arguments St : clear implicits.
Arguments M : clear implicits.

Notation "'let*' x ':=' m 'in' k" := (bind m (fun x => k))
  (at level 10, x pattern, m at level 100, k at level 200, only parsing).
Notation "m '>>' k" := (bind m (fun _ => k))
  (at level 100, k at level 200, right associativity, only parsing).

(** ** The converter *)

Module FileConverter.

(** The fields of [self] that stay fixed after [__init__].  Times are in
    milliseconds. *)
Record config := mkConfig {
  batch_wait_time : nat;
  max_gif_duration : float;
  ffmpeg_bin : string;
  ffprobe_bin : string
}.

(** [__init__]'s keyword defaults, and [--max-gif-duration]'s. *)
Definition default_batch_wait_time : nat := 100.
Definition default_max_gif_duration : float := 30%float.
Definition cli_default_max_gif_duration : float := 15%float.

(** [FileConverter(batch_wait_time, max_gif_duration)]; the binaries are
    what [get_ffmpeg_binary_path] found. *)
Definition init (bwt : option nat) (mgd : option float) (bins : string * string)
  : config :=
  mkConfig (default default_batch_wait_time bwt)
           (default default_max_gif_duration mgd)
           (fst bins) (snd bins).

(** [main]: [FileConverter(max_gif_duration=args.max_gif_duration)],
    where the option is absent from the command line or given. *)
Definition main_converter (arg : option float) (bins : string * string) : config :=
  init None (Some (default cli_default_max_gif_duration arg)) bins.

Definition image_formats : gset string :=
  {[ ".jpg"; ".jpeg"; ".png"; ".bmp"; ".gif"; ".webp"; ".tiff"; ".ico" ]}.
Definition audio_formats : gset string :=
  {[ ".mp3"; ".wav"; ".ogg"; ".m4a"; ".flac"; ".aac" ]}.
Definition video_formats : gset string :=
  {[ ".mp4"; ".avi"; ".mkv"; ".mov"; ".wmv"; ".flv"; ".webm" ]}.

Definition image_format_mapping : gmap string string :=
  list_to_map [ ("jpg", "JPEG"); ("jpeg", "JPEG"); ("png", "PNG"); ("bmp", "BMP");
                ("gif", "GIF"); ("webp", "WEBP"); ("tiff", "TIFF"); ("ico", "ICO") ].

Definition ico_sizes : list (nat * nat) :=
  [ (16, 16); (32, 32); (48, 48); (64, 64); (128, 128); (256, 256) ]%nat.

Definition audio_format_mapping : gmap string string :=
  list_to_map [ ("mp3", "mp3"); ("wav", "wav"); ("ogg", "ogg"); ("m4a", "m4a");
                ("flac", "flac"); ("aac", "aac") ].

Definition video_format_mapping : gmap string string :=
  list_to_map [ ("mp4", "mp4"); ("avi", "avi"); ("mkv", "mkv"); ("mov", "mov");
                ("wmv", "wmv"); ("flv", "flv"); ("webm", "webm"); ("gif", "gif") ].

Definition supported_formats : gset string :=
  image_formats ∪ audio_formats ∪ video_formats.

Definition default_format : string := "png".
Definition default_audio_format : string := "mp3".
Definition default_video_format : string := "mp4".

(** [os.path.join(d, f)] for a directory [d] that does not end in a
    separator, as [mkdtemp] returns it. *)
Definition os_path_join (d f : string) : string := d ++ "\" ++ f.

(** The branch of the class chains of [convert_file] that a lowercased
    suffix takes, and the table consulted there. *)
Inductive media_class := Image | Audio | Video.

Definition classify (sfx : string) : option media_class :=
  if decide (sfx ∈ image_formats) then Some Image
  else if decide (sfx ∈ audio_formats) then Some Audio
  else if decide (sfx ∈ video_formats) then Some Video
  else None.

Definition format_mapping (c : media_class) : gmap string string :=
  match c with
  | Image => image_format_mapping
  | Audio => audio_format_mapping
  | Video => video_format_mapping
  end.

Definition class_default (c : media_class) : string :=
  match c with
  | Image => default_format
  | Audio => default_audio_format
  | Video => default_video_format
  end.

Definition unsupported_output (c : media_class) (fmt : string) : value_error :=
  match c with
  | Image => UnsupportedImageOutput fmt
  | Audio => UnsupportedAudioOutput fmt
  | Video => UnsupportedVideoOutput fmt
  end.

Section Dispatch.
Context {W : Type} `{!Externals W}.
Variable self : config.

Definition run_subprocess_hidden (cmd : list string) : M W CompletedProcess :=
  invoke (CallSubprocess cmd) (subprocess_run cmd).

(** Every caller leaves [capture_output] at its default [True]. *)
Definition run_ffmpeg_command (bin : string) (input_path output_path : Path)
    (extra_args : list string) : M W CompletedProcess :=
  if Text.is_empty bin then raise (ValueError FFmpegNotFound)
  else
    let* src := read_world (resolve input_path) in
    let* dst := read_world (resolve output_path) in
    let cmd := ([bin; "-i"; src] ++ extra_args
                ++ ["-y"; "-loglevel"; "error"; "-hide_banner"; dst])%list in
    let* result := run_subprocess_hidden cmd in
    if negb (returncode result =? 0)%Z then raise (FFmpegError (stderr result))
    else ret result.

Definition run_ffprobe_command (bin : string) (input_path : Path)
    (probe_args : list string) : M W CompletedProcess :=
  if Text.is_empty bin then raise (ValueError FFprobeNotFound)
  else
    let* src := read_world (resolve input_path) in
    let cmd := ([bin; "-v"; "error"] ++ probe_args ++ [src])%list in
    let* result := run_subprocess_hidden cmd in
    if negb (returncode result =? 0)%Z then raise (FFprobeError (stderr result))
    else ret result.

Definition _convert_image (input_path output_path : Path) (output_format : string)
  : M W unit :=
  match image_format_mapping !! output_format with
  | None => raise (KeyError output_format)
  | Some pil_format =>
      let* img := invoke (CallImageOpen input_path)
                         (fun w => (image_open input_path w, w)) in
      (if String.eqb pil_format "ICO" then
         let img := if negb (String.eqb (image_mode img) "RGBA")
                    then image_convert "RGBA" img else img in
         let images := map (fun size => image_resize size img) ico_sizes in
         let sizes := Some (map image_size images) in
         invoke (CallImageSave output_path pil_format sizes)
                (image_save img output_path pil_format sizes)
       else
         let img := if String.eqb pil_format "JPEG"
                       && (String.eqb (image_mode img) "RGBA"
                           || String.eqb (image_mode img) "LA")
                    then image_convert "RGB" img else img in
         invoke (CallImageSave output_path pil_format None)
                (image_save img output_path pil_format None)) >>
      logging INFO (MsgConverted input_path output_path)
  end.

Definition _convert_audio (input_path output_path : Path) (output_format : string)
  : M W unit :=
  logged MsgAudioError
    (run_ffmpeg_command (ffmpeg_bin self) input_path output_path [] >>
     logging INFO (MsgConverted input_path output_path)).

Definition probe_args : list string :=
  ["-show_entries"; "format=duration"; "-of"; "json"].

Definition _get_video_duration (input_path : Path) : M W float :=
  logged MsgDurationError
    (let* result := run_ffprobe_command (ffprobe_bin self) input_path probe_args in
     match json_duration (stdout result) with
     | inl msg => raise (ExternalError msg)
     | inr duration => ret duration
     end).

(** [with tempfile.TemporaryDirectory() as d: body d]: the directory is
    removed when the block is left, by a return or by an exception. *)
Definition with_temporary_directory {A} (body : string → M W A) : M W A :=
  let* d := invoke CallMkdtemp mkdtemp in
  fun s =>
    let '(r, s1) := body d s in
    match invoke (CallRmtree d) (rmtree d) s1 with
    | (inl e, s2) => (inl e, s2)
    | (inr tt, s2) => (r, s2)
    end.

Definition palette_args : list string :=
  ["-vf"; "fps=10,scale=480:-1:flags=lanczos,palettegen"].

Definition gif_args (palette_path : string) : list string :=
  ["-i"; palette_path;
   "-filter_complex"; "fps=10,scale=480:-1:flags=lanczos[x];[x][1:v]paletteuse"].

Definition _convert_video_to_gif (input_path output_path : Path) : M W unit :=
  logged MsgGifError
    (with_temporary_directory (fun temp_dir =>
       let palette_path := os_path_join temp_dir "palette.png" in
       run_ffmpeg_command (ffmpeg_bin self) input_path palette_path palette_args >>
       run_ffmpeg_command (ffmpeg_bin self) input_path output_path
                          (gif_args palette_path) >>
       logging INFO (MsgConvertedGif input_path output_path))).

Definition video_extra_args (output_format : string) : list string :=
  if String.eqb output_format "mp4" || String.eqb output_format "mov" then
    ["-c:v"; "libx264"; "-c:a"; "aac"; "-preset"; "medium"; "-crf"; "23"]
  else if String.eqb output_format "webm" then
    ["-c:v"; "libvpx-vp9"; "-c:a"; "libopus"; "-crf"; "30"; "-b:v"; "0"]
  else [].

Definition _convert_video (input_path output_path : Path) (output_format : string)
  : M W unit :=
  logged MsgVideoError
    (if String.eqb output_format "gif" then
       let* duration := _get_video_duration input_path in
       if ltb (max_gif_duration self) duration then
         raise (ValueError (DurationExceeded duration (max_gif_duration self)))
       else _convert_video_to_gif input_path output_path
     else
       run_ffmpeg_command (ffmpeg_bin self) input_path output_path
                          (video_extra_args output_format) >>
       logging INFO (MsgConverted input_path output_path)).

(** [file_path.suffix.lower()[1:]] *)
Definition input_format (file_path : Path) : string :=
  Text.drop1 (Text.lower (suffix file_path)).

(** [not output_format]: [None] and the empty string are falsy. *)
Definition falsy (output_format : option string) : bool :=
  match output_format with
  | None => true
  | Some f => Text.is_empty f
  end.

(** The format [convert_file] works with after its defaulting block. *)
Definition resolve_format (file_path : Path) (output_format : option string)
  : option string :=
  let sfx := Text.lower (suffix file_path) in
  if falsy output_format then
    if decide (sfx ∈ image_formats) then Some default_format
    else if decide (sfx ∈ audio_formats) then Some default_audio_format
    else if decide (sfx ∈ video_formats) then Some default_video_format
    else output_format
  else output_format.

(** The format a call converts to: the explicit one, lowercased, or the
    default of the class; none when the call has neither. *)
Definition resolved_output_format (file_path : Path) (output_format : option string)
  : option string :=
  match resolve_format file_path output_format with
  | Some fmt => if Text.is_empty fmt then None else Some (Text.lower fmt)
  | None => None
  end.

Definition convert_file (file_path : Path) (output_format : option string)
  : M W unit :=
  logged (MsgFailedToConvert file_path)
    (let sfx := Text.lower (suffix file_path) in
     let input_format := input_format file_path in
     match resolve_format file_path output_format with
     | None => raise AttributeError
     | Some output_format =>
         let output_format := Text.lower output_format in
         match with_suffix file_path ("." ++ output_format) with
         | None => raise (ValueError (InvalidSuffix ("." ++ output_format)))
         | Some output_path =>
             if String.eqb input_format output_format then
               logging INFO (MsgSkipping file_path)
             else if decide (sfx ∈ image_formats) then
               if decide (image_format_mapping !! output_format = None) then
                 raise (ValueError (UnsupportedImageOutput output_format))
               else _convert_image file_path output_path output_format
             else if decide (sfx ∈ audio_formats) then
               if decide (audio_format_mapping !! output_format = None) then
                 raise (ValueError (UnsupportedAudioOutput output_format))
               else _convert_audio file_path output_path output_format
             else if decide (sfx ∈ video_formats) then
               if decide (video_format_mapping !! output_format = None) then
                 raise (ValueError (UnsupportedVideoOutput output_format))
               else _convert_video file_path output_path output_format
             else raise (ValueError (UnsupportedInput input_format))
         end
     end).

(** *** The batch scheduler *)

(** A [threading.Timer]: when it is due, and its [finished] event, set
    by [cancel] and at the end of [run]. *)
Record Timer := mkTimer {
  deadline : nat;
  finished : bool
}.

Definition cancel (t : Timer) : Timer := mkTimer (deadline t) true.

(** The fields of [self] that [add_file] and [process_batch] mutate,
    with the timer objects started so far; [batch_timer] refers to one
    of them by position. *)
Record sched := mkSched {
  pending_files : gset request;
  timers : list Timer;
  batch_timer : option nat
}.

Definition new_sched : sched := mkSched ∅ [] None.

(** [if self.batch_timer: self.batch_timer.cancel()] *)
Definition cancel_batch_timer (sc : sched) : list Timer :=
  match batch_timer sc with
  | Some i => alter cancel i (timers sc)
  | None => timers sc
  end.

(** The body of [add_file] under [processing_lock], entered at [now]. *)
Definition add_file (now : nat) (file_path : Path) (output_format : option string)
    (sc : sched) : M W sched :=
  if decide (Text.lower (suffix file_path) ∈ supported_formats) then
    let pending := {[ (file_path, output_format) ]} ∪ pending_files sc in
    logging INFO (MsgAdded file_path output_format) >>
    let timers := cancel_batch_timer sc in
    ret (mkSched pending
                 (timers ++ [mkTimer (now + batch_wait_time self) false])
                 (Some (length timers)))
  else
    logging WARNING (MsgUnsupportedFile file_path) >>
    ret sc.

(** One turn of the loop of [process_batch]. *)
Definition process_item (r : request) (counts : nat * nat) : M W (nat * nat) :=
  try_except
    (convert_file r.1 r.2 >> ret (S counts.1, counts.2))
    (fun e => logging ERROR (MsgErrorConverting r.1 e) >> ret (counts.1, S counts.2)).

Fixpoint process_items (l : list request) (counts : nat * nat) : M W (nat * nat) :=
  match l with
  | [] => ret counts
  | r :: l' => let* counts' := process_item r counts in process_items l' counts'
  end.

Definition report (counts : nat * nat) : M W unit :=
  (if (0 <? counts.1)%nat then logging INFO (MsgSuccessCount counts.1) else ret tt) >>
  (if (0 <? counts.2)%nat then logging WARNING (MsgFailCount counts.2) else ret tt).

(** The body of [process_batch] under [processing_lock]. *)
Definition process_batch (sc : sched) : M W sched :=
  if decide (pending_files sc = ∅) then ret sc
  else
    logging INFO (MsgProcessingBatch (size (pending_files sc))) >>
    let files_to_process := pending_files sc in
    let sc := mkSched ∅ (timers sc) (batch_timer sc) in
    let* counts := process_items (set_iter files_to_process) (0, 0)%nat in
    report counts >>
    ret sc.

End Dispatch.

(** *** Calls and timers in time

    Both [add_file] and [process_batch] run entirely under
    [processing_lock], so each is one step here.  A call that arrives
    while a pass holds the lock waits until the pass is over; a timer
    wakes at its deadline and runs [process_batch] unless it was
    cancelled; a pass over a batch lasts as long as its conversions. *)

Section Timed.
Context {W : Type} `{!Externals W}.
Variable self : config.
(** How long [convert_file] takes on a request. *)
Variable convert_time : request → nat.

Record sim := mkSim {
  sc : sched;
  st : St W;
  lock_free_at : nat;               (* when the running pass, if any, ends *)
  batches : list (gset request)     (* the batches fired so far *)
}.

(** Neither method lets an exception out; [settle] keeps the scheduler
    as it was should one do so. *)
Definition settle (sc : sched) (r : exn + sched) : sched :=
  match r with
  | inr sc' => sc'
  | inl _ => sc
  end.

Definition pass_time (batch : gset request) : nat :=
  sum_list (convert_time <$> set_iter batch).

Definition set_finished (i : nat) (s : sched) : sched :=
  mkSched (pending_files s) (alter cancel i (timers s)) (batch_timer s).

(** [Timer.run] of timer [i] once its interval has passed:
    [if not self.finished.is_set(): self.function()], then
    [self.finished.set()]. *)
Definition timer_run (i : nat) (s : sim) : sim :=
  match timers (sc s) !! i with
  | Some tm =>
      if finished tm then s
      else
        let start := deadline tm `max` lock_free_at s in
        let batch := pending_files (sc s) in
        let '(r, st') := process_batch self (sc s) (st s) in
        let sc' := settle (sc s) r in
        if decide (batch = ∅) then
          mkSim (set_finished i sc') st' (lock_free_at s) (batches s)
        else
          mkSim (set_finished i sc') st' (start + pass_time batch)
                (batches s ++ [batch])
  | None => s
  end.

(** A timer is due at [t] when its deadline has come; at the end of the
    run ([None]) every timer is. *)
Definition due (t : option nat) (tm : Timer) : bool :=
  match t with
  | Some t => (deadline tm <=? t)%nat
  | None => true
  end.

Definition timer_wake (t : option nat) (s : sim) (i : nat) : sim :=
  match timers (sc s) !! i with
  | Some tm => if due t tm then timer_run i s else s
  | None => s
  end.

Definition fire_due (t : option nat) (s : sim) : sim :=
  foldl (timer_wake t) s (seq 0 (length (timers (sc s)))).

(** A call [add_file(p, f)] arriving at [c.1]. *)
Definition call_step (s : sim) (c : nat * request) : sim :=
  let s := fire_due (Some c.1) s in
  let now := c.1 `max` lock_free_at s in
  let '(r, st') := add_file self now c.2.1 c.2.2 (sc s) (st s) in
  mkSim (settle (sc s) r) st' (lock_free_at s) (batches s).

Definition start (w : W) : sim := mkSim new_sched (mkSt w [] []) 0 [].

(** The calls in order of arrival, then every timer left. *)
Definition simulate (w : W) (calls : list (nat * request)) : sim :=
  fire_due None (foldl call_step (start w) calls).

End Timed.

(** *** Threads and the lock

    The same two methods, thread by thread: a caller in [add_file] and a
    timer thread in [process_batch] each wait at
    [with self.processing_lock] until the lock is free.  [add_file]
    takes the lock, runs and releases it in one step; a pass keeps the
    lock from its entry to the end of its loop, one conversion a step.
    Calls arrive and timers wake at any moment. *)

Section Threads.
Context {W : Type} `{!Externals W}.
Variable self : config.

Inductive thread :=
| AddWaiting (p : Path) (f : option string)
    (* a caller of [add_file], at the [with] *)
| TimerSleeping (i : nat)
    (* the thread of timer [i], in its interval *)
| BatchWaiting (i : nat)
    (* that thread in [process_batch], at the [with] *)
| BatchRunning (i : nat) (todo : list request) (counts : nat * nat)
    (* in the loop, with the items left and the counts so far *)
| Returned.

Record sys := mkSys {
  lock : option nat;            (* the thread that holds [processing_lock] *)
  shared : sched;
  state : St W;
  threads : list thread
}.

(** The threads of the timers that [add_file] started. *)
Definition started (before after : sched) : list thread :=
  TimerSleeping <$> seq (length (timers before))
                        (length (timers after) - length (timers before)).

(** A step of thread [k]. *)
Inductive step (k : nat) : sys → sys → Prop :=
| step_add s now p f sc' st' :
    threads s !! k = Some (AddWaiting p f) →
    lock s = None →
    add_file self now p f (shared s) (state s) = (inr sc', st') →
    step k s (mkSys None sc' st'
                    (<[k := Returned]> (threads s) ++ started (shared s) sc'))
| step_wake s i tm :
    threads s !! k = Some (TimerSleeping i) →
    timers (shared s) !! i = Some tm →
    step k s (mkSys (lock s) (shared s) (state s)
                    (<[k := if finished tm then Returned else BatchWaiting i]>
                       (threads s)))
| step_batch_empty s i :
    threads s !! k = Some (BatchWaiting i) →
    lock s = None →
    pending_files (shared s) = ∅ →
    step k s (mkSys None (set_finished i (shared s)) (state s)
                    (<[k := Returned]> (threads s)))
| step_batch_enter s i :
    threads s !! k = Some (BatchWaiting i) →
    lock s = None →
    pending_files (shared s) ≠ ∅ →
    step k s (mkSys (Some k)
                    (mkSched ∅ (timers (shared s)) (batch_timer (shared s)))
                    (mkSt (world (state s))
                          (log (state s)
                           ++ [(INFO, MsgProcessingBatch (size (pending_files (shared s))))])
                          (history (state s)))
                    (<[k := BatchRunning i (set_iter (pending_files (shared s))) (0, 0)%nat]>
                       (threads s)))
| step_item s i r todo counts counts' st' :
    threads s !! k = Some (BatchRunning i (r :: todo) counts) →
    process_item self r counts (state s) = (inr counts', st') →
    step k s (mkSys (lock s) (shared s) st'
                    (<[k := BatchRunning i todo counts']> (threads s)))
| step_batch_exit s i counts st' :
    threads s !! k = Some (BatchRunning i [] counts) →
    report counts (state s) = (inr tt, st') →
    step k s (mkSys None (set_finished i (shared s)) st'
                    (<[k := Returned]> (threads s))).

(** The states the converter can be in: it starts idle; a call arrives;
    a thread steps. *)
Inductive reachable : sys → Prop :=
| reach_init st : reachable (mkSys None new_sched st [])
| reach_arrive s p f :
    reachable s →
    reachable (mkSys (lock s) (shared s) (state s) (threads s ++ [AddWaiting p f]))
| reach_step s k s' : reachable s → step k s s' → reachable s'.

(** A pass is in its loop. *)
Definition running (t : thread) : bool :=
  match t with
  | BatchRunning _ _ _ => true
  | _ => false
  end.

End Threads.

Arguments sim : clear implicits.
Arguments sys : clear implicits.

End FileConverter.

(** ** A scripted world

    Child processes answer from a script, then succeed; the output of a
    probe is read as a duration of 10 or 20 seconds. *)

Module Scripted.

Definition world : Type := list (string + CompletedProcess).

Definition ok (out : string) : string + CompletedProcess := inr (mkCompleted 0 out "").
Definition failed (err : string) : string + CompletedProcess :=
  inr (mkCompleted 1 "" err).

Definition run (cmd : list string) (w : world)
  : (string + CompletedProcess) * world :=
  match w with
  | [] => (ok "", [])
  | r :: w' => (r, w')
  end.

Definition duration_of (out : string) : string + float :=
  if String.eqb out "10" then inr 10%float
  else if String.eqb out "20" then inr 20%float
  else inl "duration".

#[global] Instance externals : Externals world := {|
  Img := unit;
  resolve p _ := p;
  subprocess_run := run;
  json_duration := duration_of;
  mkdtemp w := (inr "T", w);
  rmtree _ w := (inr tt, w);
  image_open _ _ := inr tt;
  image_mode _ := "RGB";
  image_convert _ i := i;
  image_resize _ i := i;
  image_size _ := (0, 0)%nat;
  image_save _ _ _ _ w := (inr tt, w);
  set_iter := elements;
  set_iter_perm _ := reflexivity _
|}.

Definition binaries : string * string := ("ffmpeg", "ffprobe").
Definition converter : FileConverter.config := FileConverter.init None None binaries.
(** The converter [main] builds when the command line gives no maximum. *)
Definition cli_converter : FileConverter.config :=
  FileConverter.main_converter None binaries.
Definition fresh (w : world) : St world := mkSt w [] [].

End Scripted.

(** ** The context menus

    What [setup_context_menus] of [unified_converter.py] offers for the
    extensions of a class, and the guard under which
    [add_context_menu_for_extension] creates the command of a format. *)

Module ContextMenus.
Import FileConverter.

(** [{fmt[1:] for fmt in formats}] *)
Definition without_dot (formats : gset string) : gset string :=
  set_map Text.drop1 formats.

(** The set a class's extensions are registered for. *)
Definition class_extensions (c : media_class) : gset string :=
  match c with
  | Image => image_formats
  | Audio => audio_formats
  | Video => video_formats
  end.

(** The formats passed with every extension of the class. *)
Definition menu_formats (c : media_class) : gset string :=
  match c with
  | Image => without_dot image_formats
  | Audio => without_dot audio_formats
  | Video => without_dot video_formats ∪ {[ "gif" ]}
  end.

(** [fmt.lower() != ext[1:].lower()]: the format gets a command key. *)
Definition has_command (ext fmt : string) : bool :=
  negb (String.eqb (Text.lower fmt) (Text.lower (Text.drop1 ext))).

End ContextMenus.

Import FileConverter.

(** ** Vocabulary of the statements *)

Section Vocabulary.
Context {W : Type} `{!Externals W}.

(** The state after one more log record. *)
Definition with_log (st : St W) (l : level) (m : message) : St W :=
  mkSt (world st) (log st ++ [(l, m)]) (history st).

(** The error of the last branch of [convert_file]. *)
Definition is_unsupported_input (e : exn) : bool :=
  match e with
  | ValueError (UnsupportedInput _) => true
  | _ => false
  end.

(** A computation that never raises that error. *)
Definition never_unsupported_input {A} (m : M W A) : Prop :=
  ∀ st e st', m st = (inl e, st') → is_unsupported_input e = false.

(** The command lines of [run_ffprobe_command] and [run_ffmpeg_command]
    in a world [w]. *)
Definition probe_cmd (bin : string) (input_path : Path) (w : W) : list string :=
  ([bin; "-v"; "error"] ++ probe_args ++ [resolve input_path w])%list.

Definition ffmpeg_cmd (bin : string) (input_path output_path : Path)
    (extra_args : list string) (w : W) : list string :=
  ([bin; "-i"; resolve input_path w] ++ extra_args
   ++ ["-y"; "-loglevel"; "error"; "-hide_banner"; resolve output_path w])%list.

(** A child process that ran and exited with code 0. *)
Definition exited_ok (r : string + CompletedProcess) : bool :=
  match r with
  | inr res => (returncode res =? 0)%Z
  | inl _ => false
  end.

(** The outcome of converting each request of a list in turn, each in
    the state its predecessors left; a failure leaves its record in the
    log. *)
Fixpoint conversions (self : config) (l : list request) (st : St W)
  : list (exn + unit) * St W :=
  match l with
  | [] => ([], st)
  | r :: l' =>
      let '(res, st1) := convert_file self r.1 r.2 st in
      let st2 := match res with
                 | inl e => with_log st1 ERROR (MsgErrorConverting r.1 e)
                 | inr _ => st1
                 end in
      let '(rs, st3) := conversions self l' st2 in
      (res :: rs, st3)
  end.

Definition succeeded (r : exn + unit) : bool :=
  match r with inr _ => true | inl _ => false end.

Definition successes (rs : list (exn + unit)) : nat :=
  length (List.filter succeeded rs).

Definition failures (rs : list (exn + unit)) : nat :=
  length (List.filter (λ r, negb (succeeded r)) rs).

(** The closing records of a pass: a count is reported when positive. *)
Definition report_lines (counts : nat * nat) : list (level * message) :=
  ((if (0 <? counts.1)%nat then [(INFO, MsgSuccessCount counts.1)] else [])
   ++ (if (0 <? counts.2)%nat then [(WARNING, MsgFailCount counts.2)] else []))%list.

(** The scheduler after [add_file(p, f)] at [now]. *)
Definition enqueued (self : config) (now : nat) (p : Path) (f : option string)
    (sc : sched) (st : St W) : sched :=
  settle sc (add_file self now p f sc st).1.

(** A computation that only adds to the log. *)
Definition log_grows {A} (m : M W A) : Prop :=
  ∀ st, log st `prefix_of` log (m st).2.

(** Calls that each arrive less than [delay] after the one before,
    the first of them after a call at [prev]. *)
Fixpoint burst_after (delay prev : nat) (calls : list (nat * request)) : Prop :=
  match calls with
  | [] => True
  | c :: rest =>
      (prev ≤ c.1)%nat ∧ (c.1 < prev + delay)%nat ∧ burst_after delay c.1 rest
  end.

(** Calls that each arrive more than [delay] after the one before, and
    not before the pass over the one before is over; [cost] is how long
    converting a request takes. *)
Fixpoint spaced_after (delay : nat) (cost : request → nat) (prev : nat * request)
    (calls : list (nat * request)) : Prop :=
  match calls with
  | [] => True
  | c :: rest =>
      (prev.1 + delay < c.1)%nat ∧ (prev.1 + delay + cost prev.2 ≤ c.1)%nat
      ∧ spaced_after delay cost c rest
  end.

Definition recognized_calls (calls : list (nat * request)) : Prop :=
  Forall (λ c, Text.lower (suffix c.2.1) ∈ supported_formats) calls.

(** The timers of a scheduler whose current timer is due at [d] and has
    [finished] equal to [b], every earlier timer being finished. *)
Definition tracked (sc : sched) (d : nat) (b : bool) : Prop :=
  ∃ fin, timers sc = (fin ++ [mkTimer d b])%list
         ∧ Forall (λ tm, finished tm = true) fin
         ∧ batch_timer sc = Some (length fin).

(** Three calls, each more than the default 100 ms after the one
    before. *)
Definition slow_calls : list (nat * request) :=
  [ (0, ("a.png", Some "jpg")); (150, ("b.png", Some "jpg"));
    (610, ("c.png", Some "jpg")) ]%nat.

(** The lock is held by the pass in its loop, and by nothing else. *)
Definition lock_is_pass (s : sys W) : Prop :=
  (∀ k t, threads s !! k = Some t → running t = true → lock s = Some k)
  ∧ (∀ k, lock s = Some k → ∃ t, threads s !! k = Some t ∧ running t = true).

(** The scripted converter in the middle of a pass over [a.png], with a
    call for [b.png] at the lock. *)
Definition mid_pass : sys Scripted.world :=
  mkSys (Some 1%nat)
        (mkSched ∅ [mkTimer 100 false] (Some 0%nat))
        (mkSt [] [ (INFO, MsgAdded "a.png" (Some "jpg"));
                   (INFO, MsgProcessingBatch 1) ] [])
        [ Returned;
          BatchRunning 0 [("a.png", Some "jpg")] (0, 0)%nat;
          AddWaiting "b.png" (Some "jpg") ].

(** Three audio files waiting for conversion to wav. *)
Definition three_audio : sched :=
  mkSched {[ ("a.mp3", Some "wav"); ("b.mp3", Some "wav"); ("c.mp3", Some "wav") ]}
          [] None.

(** Every pending request has a recognised extension. *)
Definition recognized_pending (sc : sched) : Prop :=
  ∀ r, r ∈ pending_files sc → Text.lower (suffix r.1) ∈ supported_formats.

End Vocabulary.

(** ** Vocabulary of the further statements *)

Section Further.
Context {W : Type} `{!Externals W}.

(** A timer that is not finished is the current one. *)
Definition one_armed (sc : sched) : Prop :=
  ∀ i tm, timers sc !! i = Some tm → finished tm = false → batch_timer sc = Some i.

(** The timer threads are those of timers that exist. *)
Definition timers_exist (s : sys W) : Prop :=
  ∀ k i, threads s !! k = Some (TimerSleeping i) ∨ threads s !! k = Some (BatchWaiting i) →
         (i < length (timers (shared s)))%nat.

(** The strategy of a class. *)
Definition strategy (self : config) (c : media_class)
    (input_path output_path : Path) (output_format : string) : M W unit :=
  match c with
  | Image => _convert_image input_path output_path output_format
  | Audio => _convert_audio self input_path output_path output_format
  | Video => _convert_video self input_path output_path output_format
  end.

(** The output path of a conversion of [p] to [out]. *)
Definition converted_path (p : Path) (out : string) : Path :=
  drop_end (String.length (suffix p)) p ++ "." ++ out.

(** The extra arguments of the one transcoder invocation of a class. *)
Definition transcode_args (c : media_class) (out : string) : list string :=
  match c with
  | Video => video_extra_args out
  | _ => []
  end.

(** What a transcoder invocation that did not exit with code 0 raises. *)
Definition transcode_error (r : string + CompletedProcess) : exn :=
  match r with
  | inl msg => ExternalError msg
  | inr res => FFmpegError (stderr res)
  end.

(** The records a failure [e] inside the strategy of a class leaves: the
    strategy's own handler's, then [convert_file]'s. *)
Definition failure_records (c : media_class) (p : Path) (e : exn)
  : list (level * message) :=
  match c with
  | Image => [(ERROR, MsgFailedToConvert p e)]
  | Audio => [(ERROR, MsgAudioError e); (ERROR, MsgFailedToConvert p e)]
  | Video => [(ERROR, MsgVideoError e); (ERROR, MsgFailedToConvert p e)]
  end.

(** The strategy starts with a probe: a video asked for GIF. *)
Definition probes_first (c : media_class) (out : string) : bool :=
  match c with
  | Video => String.eqb out "gif"
  | _ => false
  end.

(** An invocation of the image library. *)
Definition is_image_call (c : call) : bool :=
  match c with
  | CallImageOpen _ | CallImageSave _ _ _ => true
  | _ => false
  end.

(** The requests of the calls that [add_file] accepts. *)
Definition accepted (calls : list (nat * request)) : gset request :=
  list_to_set
    (snd <$> filter (λ c, Text.lower (suffix c.2.1) ∈ supported_formats) calls).

(** A scheduler that has started no timer and holds nothing. *)
Definition untouched (sc : sched) : Prop :=
  timers sc = [] ∧ batch_timer sc = None ∧ pending_files sc = ∅.

(** A scheduler is untouched, or its current timer is armed over a
    non-empty pending set, or that timer is finished and nothing is
    pending. *)
Definition settled (sc : sched) : Prop :=
  untouched sc
  ∨ ∃ d b, tracked sc d b
           ∧ (b = true → pending_files sc = ∅)
           ∧ (b = false → pending_files sc ≠ ∅).

(** Calls that all arrive in the window of one delay that opens at
    [t0]. *)
Definition in_window (delay t0 : nat) (calls : list (nat * request)) : Prop :=
  Forall (λ c, (t0 ≤ c.1)%nat ∧ (c.1 < t0 + delay)%nat) calls.

(** No batch has fired and no pass has run; a timer, if one was started,
    is armed over a non-empty pending set and due no earlier than [t]. *)
Definition quiet_until (s : sim W) (t : nat) : Prop :=
  batches s = [] ∧ lock_free_at s = 0%nat
  ∧ (untouched (sc s)
     ∨ ∃ d, tracked (sc s) d false ∧ (t ≤ d)%nat ∧ pending_files (sc s) ≠ ∅).

(** Every thread has returned. *)
Definition all_returned (s : sys W) : Prop :=
  ∀ k t, threads s !! k = Some t → t = Returned.

End Further.

(** * Properties *)

(** ** Text and paths *)

Module PathFacts.
Import Text.

Lemma contains_has_sep s :
  contains sep s || contains altsep s = has_sep s.
Proof.
  induction s as [|c r IH]; [done|]. simpl. unfold is_sep.
  rewrite <- IH.
  destruct (Ascii.eqb c sep), (Ascii.eqb c altsep),
    (contains sep r), (contains altsep r); reflexivity.
Qed.

Lemma app_cons c a b : String c a ++ b = String c (a ++ b).
Proof. reflexivity. Qed.

Lemma app_snoc a c b : (a ++ String c EmptyString) ++ b = a ++ String c b.
Proof. induction a as [|d a IH]; [done|]. rewrite !app_cons. by f_equal. Qed.

Lemma has_sep_app a b : has_sep (a ++ b) = has_sep a || has_sep b.
Proof.
  induction a as [|c r IH]; [done|]. rewrite app_cons. simpl.
  rewrite IH. by rewrite orb_assoc.
Qed.

Lemma lower_char_sep c : is_sep (lower_char c) = is_sep c.
Proof. by destruct c as [[] [] [] [] [] [] [] []]. Qed.

Lemma has_sep_lower s : has_sep (lower s) = has_sep s.
Proof.
  induction s as [|c r IH]; [done|]. simpl. by rewrite lower_char_sep, IH.
Qed.

Lemma is_empty_lower s : is_empty (lower s) = is_empty s.
Proof. by destruct s. Qed.

Lemma name_from_no_sep s :
  ∀ pre, has_sep pre = false → has_sep (name_from (pre ++ s) s) = false.
Proof.
  induction s as [|c r IH]; intros pre Hpre; simpl.
  - by rewrite has_sep_app, Hpre.
  - destruct (is_sep c) eqn:Hc.
    + apply (IH EmptyString). reflexivity.
    + rewrite <- app_snoc. apply IH.
      rewrite has_sep_app, Hpre. simpl. by rewrite Hc.
Qed.

Lemma name_no_sep p : has_sep (name p) = false.
Proof. apply (name_from_no_sep p EmptyString). reflexivity. Qed.

Lemma rsplit_dot_no_sep n b a :
  rsplit_dot n = Some (b, a) → has_sep n = false → has_sep a = false.
Proof.
  revert b a. induction n as [|c r IH]; intros b a; simpl; [done|].
  intros Hs Hn. apply orb_false_iff in Hn as [_ Hr].
  destruct (rsplit_dot r) as [[b' a']|].
  - inversion Hs; subst. by eapply IH.
  - destruct (Ascii.eqb c "."); [|done]. by inversion Hs; subst.
Qed.

Lemma suffix_no_sep p : has_sep (suffix p) = false.
Proof.
  unfold suffix, suffix_of_name.
  destruct (rsplit_dot (name p)) as [[b a]|] eqn:Hs; [|done].
  destruct (is_empty b || is_empty a); [done|].
  simpl. eapply rsplit_dot_no_sep; [done|apply name_no_sep].
Qed.

(** A path with a suffix has a name. *)
Lemma suffix_name_nonempty p : is_empty (suffix p) = false → is_empty (name p) = false.
Proof.
  unfold suffix, suffix_of_name. by destruct (name p).
Qed.

(** [with_suffix] accepts a dot followed by a non-empty text without
    separators, on a path that has a name. *)
Lemma with_suffix_ok p fmt :
  is_empty fmt = false → has_sep fmt = false → is_empty (name p) = false →
  with_suffix p ("." ++ fmt)
  = Some (drop_end (String.length (suffix p)) p ++ "." ++ fmt).
Proof.
  intros Hne Hsep Hname. unfold with_suffix.
  change ("." ++ fmt) with (String "." fmt).
  rewrite contains_has_sep. simpl has_sep. rewrite Hsep, Hname. simpl.
  by destruct fmt.
Qed.

Lemma with_suffix_sep p fmt : has_sep fmt = true → with_suffix p ("." ++ fmt) = None.
Proof.
  intros Hsep. unfold with_suffix.
  change ("." ++ fmt) with (String "." fmt).
  rewrite contains_has_sep. simpl has_sep. by rewrite Hsep.
Qed.

End PathFacts.

(** ** The dispatcher *)

Section DispatchFacts.
Context {W : Type} `{!Externals W}.
Variable self : config.
Import Text PathFacts.

Lemma has_sep_drop1 s : has_sep s = false → has_sep (drop1 s) = false.
Proof. destruct s; [done|]. simpl. by intros [_ ?]%orb_false_iff. Qed.

Lemma input_format_no_sep p : has_sep (input_format p) = false.
Proof.
  unfold input_format. apply has_sep_drop1. rewrite has_sep_lower.
  apply suffix_no_sep.
Qed.

Lemma input_format_name p :
  is_empty (input_format p) = false → is_empty (name p) = false.
Proof.
  intros Hi. apply suffix_name_nonempty.
  unfold input_format in Hi. by destruct (suffix p).
Qed.

Lemma resolved_output_format_inv p f out :
  resolved_output_format p f = Some out →
  ∃ fmt, resolve_format p f = Some fmt ∧ is_empty fmt = false ∧ out = lower fmt.
Proof.
  unfold resolved_output_format.
  destruct (resolve_format p f) as [fmt|]; [|done].
  destruct (is_empty fmt) eqn:He; [done|].
  intros [= <-]. by exists fmt.
Qed.

(** C7: when the input format equals the resolved output format,
    [convert_file] returns normally after logging the skip; no strategy
    is dispatched, the world and the record of external invocations are
    as before. *)
Theorem same_format_skip (p : Path) (f : option string) (out : string) (st : St W) :
  resolved_output_format p f = Some out →
  input_format p = out →
  convert_file self p f st = (inr tt, with_log st INFO (MsgSkipping p)).
Proof.
  intros (fmt & Hr & Hne & ->)%resolved_output_format_inv Hin.
  assert (Hok : with_suffix p ("." ++ lower fmt)
                = Some (drop_end (String.length (suffix p)) p ++ "." ++ lower fmt)).
  { apply with_suffix_ok.
    - by rewrite is_empty_lower.
    - rewrite <- Hin. apply input_format_no_sep.
    - apply input_format_name. by rewrite Hin, is_empty_lower. }
  unfold convert_file, logged, try_except. rewrite Hr, Hok, Hin.
  by rewrite String.eqb_refl.
Qed.

Lemma classify_nonempty sfx c : classify sfx = Some c → is_empty sfx = false.
Proof. destruct sfx; [|done]. vm_compute. congruence. Qed.

Lemma classify_supported sfx : sfx ∈ supported_formats ↔ is_Some (classify sfx).
Proof.
  unfold classify, supported_formats. rewrite !elem_of_union.
  repeat case_decide; (split; [|intros [? ?]]); eauto; try tauto; done.
Qed.

Lemma classified_name p c :
  classify (lower (suffix p)) = Some c → is_empty (name p) = false.
Proof.
  intros Hc%classify_nonempty. rewrite is_empty_lower in Hc.
  by apply suffix_name_nonempty.
Qed.

(** C9, as the code has it: a resolved output format that differs from
    the input format and is absent from the table of the source's class
    makes [convert_file] fail before any strategy is dispatched, the
    world and the record of external invocations being as before.  The
    error is the class's "Unsupported ... output format", except for a
    format that contains a path separator, which [with_suffix] has
    already refused. *)
Theorem unsupported_output_fails_before_dispatch
    (p : Path) (f : option string) (out : string) (c : media_class) (st : St W) :
  resolved_output_format p f = Some out →
  input_format p ≠ out →
  classify (lower (suffix p)) = Some c →
  format_mapping c !! out = None →
  let e := ValueError (if has_sep out then InvalidSuffix ("." ++ out)
                       else unsupported_output c out) in
  convert_file self p f st = (inl e, with_log st ERROR (MsgFailedToConvert p e)).
Proof.
  intros (fmt & Hr & Hne & ->)%resolved_output_format_inv Hdiff Hc Hmap.
  unfold convert_file, logged, try_except. rewrite Hr. simpl.
  destruct (has_sep (lower fmt)) eqn:Hsep.
  - by rewrite with_suffix_sep.
  - rewrite with_suffix_ok; [|by rewrite is_empty_lower|done|by eapply classified_name].
    apply String.eqb_neq in Hdiff. rewrite Hdiff.
    revert Hc Hmap. unfold classify.
    destruct (decide (lower (suffix p) ∈ image_formats));
      [|destruct (decide (lower (suffix p) ∈ audio_formats));
        [|destruct (decide (lower (suffix p) ∈ video_formats))]];
      intros [= <-]; simpl; intros Hmap;
      by (case_decide; [|done]).
Qed.

(** *** Which computations can raise "Unsupported input format" *)

Lemma nui_ret {A} (a : A) : never_unsupported_input (W:=W) (ret a).
Proof. intros st e st'. unfold ret. congruence. Qed.

Lemma nui_raise {A} e :
  is_unsupported_input e = false → never_unsupported_input (W:=W) (A:=A) (raise e).
Proof. intros He st e' st'. unfold raise. congruence. Qed.

Lemma nui_bind {A B} (m : M W A) (k : A → M W B) :
  never_unsupported_input m → (∀ a, never_unsupported_input (k a)) →
  never_unsupported_input (bind m k).
Proof.
  intros Hm Hk st e st'. unfold bind.
  destruct (m st) as [[e1|a] s1] eqn:Hms.
  - intros [= <- <-]. eauto.
  - apply Hk.
Qed.

Lemma nui_logging l m : never_unsupported_input (W:=W) (logging l m).
Proof. intros st e st'. unfold logging. congruence. Qed.

Lemma nui_logged {A} msg (m : M W A) :
  never_unsupported_input m → never_unsupported_input (logged msg m).
Proof.
  intros Hm st e st'. unfold logged, try_except, bind, logging, raise.
  destruct (m st) as [[e1|a] s1] eqn:Hms; [|congruence].
  intros [= <- <-]. eauto.
Qed.

Lemma nui_invoke {A} c (f : W → (string + A) * W) :
  never_unsupported_input (invoke c f).
Proof.
  intros st e st'. unfold invoke. destruct (f (world st)) as [[msg|a] w']; simpl.
  - by intros [= <- <-].
  - congruence.
Qed.

Lemma nui_read_world {A} (f : W → A) : never_unsupported_input (read_world f).
Proof. intros st e st'. unfold read_world. congruence. Qed.

Lemma nui_with_temporary_directory {A} (body : string → M W A) :
  (∀ d, never_unsupported_input (body d)) →
  never_unsupported_input (with_temporary_directory body).
Proof.
  intros Hb. unfold with_temporary_directory. apply nui_bind; [apply nui_invoke|].
  intros d st e st'.
  destruct (body d st) as [r s1] eqn:Hbs.
  destruct (invoke (CallRmtree d) (rmtree d) s1) as [[e2|[]] s2] eqn:Hrm.
  - intros [= <- <-]. by eapply nui_invoke.
  - intros [= -> <-]. by eapply Hb.
Qed.

Ltac nui :=
  repeat first
    [ apply nui_ret | apply nui_logging | apply nui_invoke | apply nui_read_world
    | apply nui_raise; reflexivity
    | apply nui_logged
    | apply nui_with_temporary_directory; intros
    | apply nui_bind; [|intros]
    | match goal with
      | |- never_unsupported_input (if ?b then _ else _) => destruct b
      | |- never_unsupported_input (match ?x with _ => _ end) => destruct x
      end ].

Lemma nui_run_ffmpeg_command bin i o args :
  never_unsupported_input (run_ffmpeg_command (W:=W) bin i o args).
Proof. unfold run_ffmpeg_command, run_subprocess_hidden. nui. Qed.

Lemma nui_run_ffprobe_command bin i args :
  never_unsupported_input (run_ffprobe_command (W:=W) bin i args).
Proof. unfold run_ffprobe_command, run_subprocess_hidden. nui. Qed.

Lemma nui_convert_image i o fmt :
  never_unsupported_input (_convert_image (W:=W) i o fmt).
Proof. unfold _convert_image. nui. Qed.

Lemma nui_convert_audio i o fmt :
  never_unsupported_input (_convert_audio self i o fmt).
Proof. unfold _convert_audio. nui. apply nui_run_ffmpeg_command. Qed.

Lemma nui_convert_video i o fmt :
  never_unsupported_input (_convert_video self i o fmt).
Proof.
  unfold _convert_video, _get_video_duration, _convert_video_to_gif.
  nui; first [apply nui_run_ffmpeg_command | apply nui_run_ffprobe_command].
Qed.

Lemma nui_convert_file_no_format p :
  never_unsupported_input (convert_file self p None).
Proof.
  unfold convert_file, resolve_format. simpl falsy. cbv iota.
  apply nui_logged.
  destruct (decide (lower (suffix p) ∈ image_formats)) as [Hi|Hi];
    [|destruct (decide (lower (suffix p) ∈ audio_formats)) as [Ha|Ha];
      [|destruct (decide (lower (suffix p) ∈ video_formats)) as [Hv|Hv]]];
    nui;
    first [ apply nui_convert_image | apply nui_convert_audio
          | apply nui_convert_video | apply nui_run_ffmpeg_command ].
Qed.

Lemma attribute_error_unrecognized p st :
  lower (suffix p) ∉ supported_formats →
  convert_file self p None st
  = (inl AttributeError, with_log st ERROR (MsgFailedToConvert p AttributeError)).
Proof.
  intros Hs. unfold convert_file, resolve_format, logged, try_except. simpl falsy.
  cbv iota. unfold supported_formats in Hs. rewrite !elem_of_union in Hs.
  repeat case_decide; tauto || done.
Qed.

Lemma unsupported_input_reached st :
  convert_file self "notes.txt" (Some "png") st
  = (inl (ValueError (UnsupportedInput "txt")),
     with_log st ERROR (MsgFailedToConvert "notes.txt" (ValueError (UnsupportedInput "txt")))).
Proof. reflexivity. Qed.

Lemma add_file_recognized now p f sc (st : St W) :
  lower (suffix p) ∈ supported_formats →
  add_file self now p f sc st
  = (inr (mkSched ({[ (p, f) ]} ∪ pending_files sc)
                  (cancel_batch_timer sc ++ [mkTimer (now + batch_wait_time self) false])
                  (Some (length (cancel_batch_timer sc)))),
     with_log st INFO (MsgAdded p f)).
Proof. intros Hs. unfold add_file. by rewrite decide_True. Qed.

Lemma add_file_unrecognized now p f sc (st : St W) :
  lower (suffix p) ∉ supported_formats →
  add_file self now p f sc st = (inr sc, with_log st WARNING (MsgUnsupportedFile p)).
Proof. intros Hs. unfold add_file. by rewrite decide_False. Qed.

Lemma add_file_recognized_pending now p f sc (st : St W) sc' st' :
  add_file self now p f sc st = (inr sc', st') →
  recognized_pending sc → recognized_pending sc'.
Proof.
  destruct (decide (lower (suffix p) ∈ supported_formats)) as [Hs|Hs].
  - rewrite add_file_recognized by done. intros [= <- <-] Hrec r. simpl.
    rewrite elem_of_union, elem_of_singleton. intros [->|Hr]; [done|by apply Hrec].
  - rewrite add_file_unrecognized by done. by intros [= <- <-].
Qed.

(** C10: without an explicit format, [convert_file] on a path of no
    class raises an [AttributeError], and never the "Unsupported input
    format" error, which a call with an explicit format does reach;
    [add_file] leaves the scheduler as it is on such a path, so every
    pending request has a recognised extension. *)
Theorem unrecognized_source_without_format :
  (∀ p (st : St W), lower (suffix p) ∉ supported_formats →
     convert_file self p None st
     = (inl AttributeError, with_log st ERROR (MsgFailedToConvert p AttributeError)))
  ∧ (∀ p (st : St W) e st',
       convert_file self p None st = (inl e, st') → is_unsupported_input e = false)
  ∧ (∀ st : St W,
       convert_file self "notes.txt" (Some "png") st
       = (inl (ValueError (UnsupportedInput "txt")),
          with_log st ERROR
            (MsgFailedToConvert "notes.txt" (ValueError (UnsupportedInput "txt")))))
  ∧ (∀ now p f sc (st : St W), lower (suffix p) ∉ supported_formats →
       add_file self now p f sc st
       = (inr sc, with_log st WARNING (MsgUnsupportedFile p)))
  ∧ (∀ now p f sc (st : St W) sc' st',
       add_file self now p f sc st = (inr sc', st') →
       recognized_pending sc → recognized_pending sc').
Proof.
  split; [exact attribute_error_unrecognized|].
  split; [intros p st e st'; apply nui_convert_file_no_format|].
  split; [exact unsupported_input_reached|].
  split; [exact add_file_unrecognized|exact add_file_recognized_pending].
Qed.

(** *** Child processes *)

Lemma invoke_eq {A} c (f : W → (string + A) * W) (st : St W) r w' :
  f (world st) = (r, w') →
  invoke c f st = (external r, mkSt w' (log st) (history st ++ [c])).
Proof. intros Hf. unfold invoke. by rewrite Hf. Qed.

Lemma run_ffprobe_command_eq bin i (st : St W) r w' :
  is_empty bin = false →
  subprocess_run (probe_cmd bin i (world st)) (world st) = (r, w') →
  run_ffprobe_command bin i probe_args st
  = (match r with
     | inl msg => inl (ExternalError msg)
     | inr res => if (returncode res =? 0)%Z then inr res
                  else inl (FFprobeError (stderr res))
     end,
     mkSt w' (log st) (history st ++ [CallSubprocess (probe_cmd bin i (world st))])).
Proof.
  intros Hbin Hrun. unfold run_ffprobe_command. rewrite Hbin.
  unfold bind, read_world, run_subprocess_hidden.
  erewrite invoke_eq by exact Hrun.
  destruct r as [msg|res]; [done|]. simpl.
  by destruct (returncode res =? 0)%Z.
Qed.

Lemma run_ffmpeg_command_eq bin i o args (st : St W) r w' :
  is_empty bin = false →
  subprocess_run (ffmpeg_cmd bin i o args (world st)) (world st) = (r, w') →
  run_ffmpeg_command bin i o args st
  = (match r with
     | inl msg => inl (ExternalError msg)
     | inr res => if (returncode res =? 0)%Z then inr res
                  else inl (FFmpegError (stderr res))
     end,
     mkSt w' (log st)
          (history st ++ [CallSubprocess (ffmpeg_cmd bin i o args (world st))])).
Proof.
  intros Hbin Hrun. unfold run_ffmpeg_command. rewrite Hbin.
  unfold bind, read_world, run_subprocess_hidden.
  erewrite invoke_eq by exact Hrun.
  destruct r as [msg|res]; [done|]. simpl.
  by destruct (returncode res =? 0)%Z.
Qed.

(** A probe that ran, exited with code 0 and printed a duration. *)
Lemma get_video_duration_eq i (st : St W) res w' d :
  is_empty (ffprobe_bin self) = false →
  subprocess_run (probe_cmd (ffprobe_bin self) i (world st)) (world st) = (inr res, w') →
  returncode res = 0%Z →
  json_duration (stdout res) = inr d →
  _get_video_duration self i st
  = (inr d,
     mkSt w' (log st)
          (history st ++ [CallSubprocess (probe_cmd (ffprobe_bin self) i (world st))])).
Proof.
  intros Hbin Hrun Hrc Hd. unfold _get_video_duration, logged, try_except, bind.
  erewrite run_ffprobe_command_eq by done. cbv beta iota.
  rewrite Hrc. cbn. by rewrite Hd.
Qed.

(** *** Video sources and GIF *)

Lemma video_source sfx :
  sfx ∈ video_formats →
  (sfx ∉ image_formats) ∧ (sfx ∉ audio_formats) ∧ (drop1 sfx ≠ "gif")
  ∧ is_empty sfx = false.
Proof.
  unfold video_formats. rewrite !elem_of_union, !elem_of_singleton.
  intros H. repeat destruct H as [H|H]; subst sfx;
    (split; [by vm_compute|split; [by vm_compute|done]]).
Qed.

Lemma gif_in_video_mapping : video_format_mapping !! "gif" = Some "gif".
Proof. reflexivity. Qed.

(** A video source asked for GIF reaches [_convert_video]. *)
Lemma convert_file_video_gif p f (st : St W) :
  lower (suffix p) ∈ video_formats →
  lower f = "gif" →
  convert_file self p (Some f) st
  = logged (MsgFailedToConvert p)
      (_convert_video self p (drop_end (String.length (suffix p)) p ++ ".gif") "gif") st.
Proof.
  intros Hv Hf.
  destruct (video_source _ Hv) as (Hi & Ha & Hgif & Hne).
  assert (Hfe : is_empty f = false) by (by destruct f).
  unfold convert_file, resolve_format. simpl falsy. rewrite Hfe. cbv iota.
  unfold logged, try_except. rewrite Hf.
  rewrite with_suffix_ok;
    [|done|done|by apply suffix_name_nonempty; rewrite <- is_empty_lower].
  apply String.eqb_neq in Hgif. unfold input_format. rewrite Hgif.
  rewrite (decide_False (P:=_ ∈ image_formats)) by done.
  rewrite (decide_False (P:=_ ∈ audio_formats)) by done.
  rewrite (decide_True (P:=_ ∈ video_formats)) by done.
  rewrite decide_False; [done|by rewrite gif_in_video_mapping].
Qed.

(** C4: for a video source asked for GIF whose probed duration exceeds
    the maximum, [convert_file] fails with the duration error carrying
    the probed duration and the maximum; the probe is the only external
    invocation, so nothing is written.  The maximum is 15 seconds when
    the command line leaves it out and 30 seconds when the constructor
    is called without it. *)
Theorem gif_duration_exceeded_fails :
  (∀ bins,
     max_gif_duration (main_converter None bins) = 15%float
     ∧ max_gif_duration (init None None bins) = 30%float)
  ∧ (∀ (p : Path) (f : string) (st : St W) res w' d,
       lower (suffix p) ∈ video_formats →
       lower f = "gif" →
       is_empty (ffprobe_bin self) = false →
       subprocess_run (probe_cmd (ffprobe_bin self) p (world st)) (world st)
       = (inr res, w') →
       returncode res = 0%Z →
       json_duration (stdout res) = inr d →
       ltb (max_gif_duration self) d = true →
       let e := ValueError (DurationExceeded d (max_gif_duration self)) in
       convert_file self p (Some f) st
       = (inl e,
          mkSt w'
               (log st ++ [(ERROR, MsgVideoError e); (ERROR, MsgFailedToConvert p e)])
               (history st
                ++ [CallSubprocess (probe_cmd (ffprobe_bin self) p (world st))]))).
Proof.
  split; [done|].
  intros p f st res w' d Hv Hf Hbin Hrun Hrc Hd Hlt e.
  rewrite convert_file_video_gif by done.
  unfold _convert_video. simpl String.eqb. cbv iota.
  unfold logged, try_except, bind.
  erewrite get_video_duration_eq by done. rewrite Hlt.
  unfold raise, logging. simpl. by rewrite <- app_assoc.
Qed.

Lemma rmtree_history d (s1 : St W) :
  history (invoke (CallRmtree d) (rmtree d) s1).2
  = (history s1 ++ [CallRmtree d])%list.
Proof. unfold invoke. by destruct (rmtree d (world s1)). Qed.

(** The invocations of a block under [with_temporary_directory]: the
    directory is made, the body runs, the directory is removed. *)
Lemma with_temporary_directory_history {A} (body : string → M W A) (st : St W) d w1 :
  mkdtemp (world st) = (inr d, w1) →
  let s0 := mkSt w1 (log st) (history st ++ [CallMkdtemp]) in
  history (with_temporary_directory body st).2
  = (history (body d s0).2 ++ [CallRmtree d])%list.
Proof.
  intros Hmk s0. unfold with_temporary_directory, bind.
  erewrite invoke_eq by exact Hmk. simpl external. cbv iota. fold s0.
  destruct (body d s0) as [r s1]. simpl snd.
  pose proof (rmtree_history d s1) as Hrm.
  destruct (invoke (CallRmtree d) (rmtree d) s1) as [[e|[]] s2]; exact Hrm.
Qed.

Lemma logged_history {A} msg (m : M W A) (st : St W) :
  history (logged msg m st).2 = history (m st).2.
Proof.
  unfold logged, try_except, bind, logging, raise.
  by destruct (m st) as [[e|a] s1].
Qed.

(** The invocations of the two passes, in a directory [d] already made. *)
Lemma gif_passes_history input output d (s0 : St W) r1 w2 :
  is_empty (ffmpeg_bin self) = false →
  let palette := os_path_join d "palette.png" in
  let pass1 := ffmpeg_cmd (ffmpeg_bin self) input palette palette_args (world s0) in
  subprocess_run pass1 (world s0) = (r1, w2) →
  let pass2 := ffmpeg_cmd (ffmpeg_bin self) input output (gif_args palette) w2 in
  history
    ((run_ffmpeg_command (ffmpeg_bin self) input palette palette_args >>
      run_ffmpeg_command (ffmpeg_bin self) input output (gif_args palette) >>
      logging INFO (MsgConvertedGif input output)) s0).2
  = (history s0 ++ [CallSubprocess pass1]
     ++ (if exited_ok r1 then [CallSubprocess pass2] else []))%list.
Proof.
  intros Hbin palette pass1 Hrun1 pass2. unfold bind at 1.
  erewrite run_ffmpeg_command_eq by done. fold pass1.
  destruct r1 as [msg|res1]; [done|]. simpl exited_ok.
  destruct (returncode res1 =? 0)%Z; [|done].
  unfold bind.
  destruct (subprocess_run pass2 w2) as [r2 w3] eqn:Hrun2.
  erewrite run_ffmpeg_command_eq by done. fold pass2. simpl world.
  destruct r2 as [msg|res2]; [simpl; by rewrite <- app_assoc|].
  destruct (returncode res2 =? 0)%Z; simpl; by rewrite <- app_assoc.
Qed.

(** C8, as the code has it: for a video source whose probed duration is
    within the maximum, with the transcoder found and the temporary
    directory made, conversion to GIF invokes the palette pass and, when
    that pass exits with code 0, the render pass with the palette as a
    second input: two transcoder invocations in that order, or the
    palette pass alone when it fails.  The removal of the temporary
    directory is the last invocation in either case, whatever the
    render pass does. *)
Theorem gif_two_pass_pipeline
    (input output : Path) (st : St W) res w0 dur d w1 r1 w2 :
  is_empty (ffprobe_bin self) = false →
  let probe := probe_cmd (ffprobe_bin self) input (world st) in
  subprocess_run probe (world st) = (inr res, w0) →
  returncode res = 0%Z →
  json_duration (stdout res) = inr dur →
  ltb (max_gif_duration self) dur = false →
  is_empty (ffmpeg_bin self) = false →
  mkdtemp w0 = (inr d, w1) →
  let palette := os_path_join d "palette.png" in
  let pass1 := ffmpeg_cmd (ffmpeg_bin self) input palette palette_args w1 in
  subprocess_run pass1 w1 = (r1, w2) →
  let pass2 := ffmpeg_cmd (ffmpeg_bin self) input output (gif_args palette) w2 in
  history (_convert_video self input output "gif" st).2
  = (history st
     ++ [CallSubprocess probe; CallMkdtemp; CallSubprocess pass1]
     ++ (if exited_ok r1 then [CallSubprocess pass2] else [])
     ++ [CallRmtree d])%list.
Proof.
  intros Hpbin probe Hprobe Hrc Hdur Hle Hbin Hmk palette pass1 Hrun1 pass2.
  unfold _convert_video. simpl String.eqb. cbv iota.
  rewrite logged_history. unfold bind.
  erewrite get_video_duration_eq by done. rewrite Hle.
  unfold _convert_video_to_gif. rewrite logged_history.
  erewrite with_temporary_directory_history by (simpl; exact Hmk).
  erewrite gif_passes_history by (first [exact Hbin | simpl; exact Hrun1]).
  simpl history. fold probe pass1 pass2.
  by rewrite <- !app_assoc.
Qed.

End DispatchFacts.

(** ** The batch scheduler *)

Section SchedulerFacts.
Context {W : Type} `{!Externals W}.
Variable self : config.
Import Text PathFacts.

Lemma set_iter_elem (s : gset request) r : r ∈ set_iter s ↔ r ∈ s.
Proof. rewrite (set_iter_perm s). apply elem_of_elements. Qed.

Lemma set_iter_length (s : gset request) : length (set_iter s) = size s.
Proof. by rewrite (set_iter_perm s). Qed.

Lemma set_iter_singleton (r : request) : set_iter {[ r ]} = [r].
Proof.
  apply Permutation_singleton_r. rewrite (set_iter_perm {[ r ]}).
  by rewrite elements_singleton.
Qed.

Lemma process_item_eq r counts (st : St W) :
  process_item self r counts st
  = let '(res, st1) := convert_file self r.1 r.2 st in
    match res with
    | inl e => (inr (counts.1, S counts.2),
                with_log st1 ERROR (MsgErrorConverting r.1 e))
    | inr _ => (inr (S counts.1, counts.2), st1)
    end.
Proof.
  unfold process_item, try_except, bind.
  by destruct (convert_file self r.1 r.2 st) as [[e|[]] st1].
Qed.

(** The loop never raises: it returns the counts of the outcomes. *)
Lemma process_items_conversions l : ∀ counts (st : St W),
  process_items self l counts st
  = (inr (counts.1 + successes (conversions self l st).1,
          counts.2 + failures (conversions self l st).1)%nat,
     (conversions self l st).2).
Proof.
  induction l as [|r l IH]; intros [s f] st.
  - simpl. unfold ret, successes, failures. simpl. by rewrite !Nat.add_0_r.
  - simpl process_items. unfold bind. rewrite process_item_eq. simpl conversions.
    destruct (convert_file self r.1 r.2 st) as [[e|[]] st1].
    + rewrite IH.
      destruct (conversions self l (with_log st1 ERROR (MsgErrorConverting r.1 e)))
        as [rs st3].
      unfold successes, failures. simpl. by rewrite Nat.add_succ_r.
    + rewrite IH. destruct (conversions self l st1) as [rs st3].
      unfold successes, failures. simpl. by rewrite Nat.add_succ_r.
Qed.

Lemma conversions_length l : ∀ st : St W, length (conversions self l st).1 = length l.
Proof.
  induction l as [|r l IH]; intros st; [done|]. simpl.
  destruct (convert_file self r.1 r.2 st) as [res st1].
  specialize (IH (match res with
                  | inl e => with_log st1 ERROR (MsgErrorConverting r.1 e)
                  | inr _ => st1
                  end)).
  destruct (conversions self l _) as [rs st3]. simpl in *. by rewrite IH.
Qed.

Lemma successes_failures rs : (successes rs + failures rs = length rs)%nat.
Proof.
  unfold successes, failures. induction rs as [|[e|u] rs IH]; simpl; lia.
Qed.

(** *** The log only grows *)

Lemma lg_ret {A} (a : A) : log_grows (W:=W) (ret a).
Proof. by intros st. Qed.

Lemma lg_raise {A} e : log_grows (W:=W) (A:=A) (raise e).
Proof. by intros st. Qed.

Lemma lg_bind {A B} (m : M W A) (k : A → M W B) :
  log_grows m → (∀ a, log_grows (k a)) → log_grows (bind m k).
Proof.
  intros Hm Hk st. unfold bind. specialize (Hm st).
  destruct (m st) as [[e|a] s1]; [done|].
  etrans; [exact Hm|apply Hk].
Qed.

Lemma lg_try_except {A} (m : M W A) (h : exn → M W A) :
  log_grows m → (∀ e, log_grows (h e)) → log_grows (try_except m h).
Proof.
  intros Hm Hh st. unfold try_except. specialize (Hm st).
  destruct (m st) as [[e|a] s1]; [|done].
  etrans; [exact Hm|apply Hh].
Qed.

Lemma lg_logging l m : log_grows (W:=W) (logging l m).
Proof. intros st. simpl. by apply prefix_app_r. Qed.

Lemma lg_invoke {A} c (f : W → (string + A) * W) : log_grows (invoke c f).
Proof. intros st. unfold invoke. by destruct (f (world st)). Qed.

Lemma lg_read_world {A} (f : W → A) : log_grows (read_world f).
Proof. by intros st. Qed.

Lemma lg_with_temporary_directory {A} (body : string → M W A) :
  (∀ d, log_grows (body d)) → log_grows (with_temporary_directory body).
Proof.
  intros Hb. unfold with_temporary_directory. apply lg_bind; [apply lg_invoke|].
  intros d st. specialize (Hb d st).
  destruct (body d st) as [r s1]. simpl in Hb.
  pose proof (lg_invoke (A:=unit) (CallRmtree d) (rmtree d) s1) as Hrm.
  destruct (invoke (CallRmtree d) (rmtree d) s1) as [[e|[]] s2];
    simpl in *; by etrans.
Qed.

Ltac lg :=
  repeat first
    [ apply lg_ret | apply lg_raise | apply lg_logging | apply lg_invoke
    | apply lg_read_world
    | apply lg_with_temporary_directory; intros
    | apply lg_bind; [|intros]
    | apply lg_try_except; [|intros]
    | match goal with
      | |- log_grows (if ?b then _ else _) => destruct b
      | |- log_grows (match ?x with _ => _ end) => destruct x
      end ].

Lemma lg_convert_file p f : log_grows (convert_file self p f).
Proof.
  unfold convert_file, _convert_image, _convert_audio, _convert_video,
    _get_video_duration, _convert_video_to_gif, run_ffmpeg_command,
    run_ffprobe_command, run_subprocess_hidden, logged.
  lg.
Qed.

Lemma conversions_log_grows l : ∀ st : St W,
  log st `prefix_of` log (conversions self l st).2.
Proof.
  induction l as [|r l IH]; intros st; [done|]. simpl.
  pose proof (lg_convert_file r.1 r.2 st) as Hc.
  destruct (convert_file self r.1 r.2 st) as [res st1]. simpl in Hc.
  set (st2 := match res with
              | inl e => with_log st1 ERROR (MsgErrorConverting r.1 e)
              | inr _ => st1
              end).
  specialize (IH st2). destruct (conversions self l st2) as [rs st3].
  simpl in *. etrans; [exact Hc|]. etrans; [|exact IH].
  subst st2. destruct res; [by apply prefix_app_r|done].
Qed.

(** The record of every failed item is in the log the loop leaves. *)
Lemma conversions_failures_logged l : ∀ (st : St W) i r e,
  l !! i = Some r → (conversions self l st).1 !! i = Some (inl e) →
  (ERROR, MsgErrorConverting r.1 e) ∈ log (conversions self l st).2.
Proof.
  induction l as [|r0 l IH]; intros st i r e; [done|]. simpl.
  destruct (convert_file self r0.1 r0.2 st) as [res st1].
  set (st2 := match res with
              | inl e => with_log st1 ERROR (MsgErrorConverting r0.1 e)
              | inr _ => st1
              end).
  pose proof (conversions_log_grows l st2) as Hg.
  specialize (IH st2). destruct (conversions self l st2) as [rs st3].
  simpl in *. destruct i as [|i]; simpl.
  - intros [= ->] [= ->]. subst st2. simpl in Hg.
    eapply elem_of_prefix; [|exact Hg].
    apply elem_of_app. right. by apply list_elem_of_singleton.
  - apply IH.
Qed.

(** *** One pass *)

Lemma report_eq counts (st : St W) :
  report counts st
  = (inr tt, mkSt (world st) (log st ++ report_lines counts) (history st)).
Proof.
  unfold report, report_lines, bind, logging, ret. destruct st as [w lg h].
  destruct (0 <? counts.1)%nat, (0 <? counts.2)%nat; simpl;
    by rewrite <- ?app_assoc, ?app_nil_r.
Qed.

Lemma process_batch_empty sc (st : St W) :
  pending_files sc = ∅ → process_batch self sc st = (inr sc, st).
Proof. intros He. unfold process_batch. by rewrite decide_True. Qed.

Lemma process_batch_nonempty sc (st : St W) :
  pending_files sc ≠ ∅ →
  let c := conversions self (set_iter (pending_files sc))
             (with_log st INFO (MsgProcessingBatch (size (pending_files sc)))) in
  process_batch self sc st
  = (inr (mkSched ∅ (timers sc) (batch_timer sc)),
     mkSt (world c.2) (log c.2 ++ report_lines (successes c.1, failures c.1))
          (history c.2)).
Proof.
  intros Hne c. unfold process_batch. rewrite decide_False by done.
  unfold bind at 1. unfold logging at 1. unfold bind at 1.
  rewrite process_items_conversions. fold (with_log st INFO
    (MsgProcessingBatch (size (pending_files sc)))). fold c.
  unfold bind. by rewrite report_eq.
Qed.

(** Reading the counts back from the closing records. *)
Lemma report_lines_inj c1 c2 : report_lines c1 = report_lines c2 → c1 = c2.
Proof.
  destruct c1 as [s1 f1], c2 as [s2 f2]. unfold report_lines. simpl.
  destruct s1, f1, s2, f2; simpl; intros H; by simplify_eq.
Qed.

(** C5: a pass over a non-empty pending set never raises.  Every
    captured item is converted in turn, whatever happened to the items
    before it; an item whose conversion raised leaves an error record
    with its path and is counted as a failure, the others as successes;
    the pass ends with the records of the counts, from which both counts
    can be read back (a count of zero has no record). *)
Theorem batch_failure_isolation (sc : sched) (st : St W) :
  pending_files sc ≠ ∅ →
  let items := set_iter (pending_files sc) in
  let c := conversions self items
             (with_log st INFO (MsgProcessingBatch (size (pending_files sc)))) in
  let counts := (successes c.1, failures c.1) in
  process_batch self sc st
  = (inr (mkSched ∅ (timers sc) (batch_timer sc)),
     mkSt (world c.2) (log c.2 ++ report_lines counts) (history c.2))
  ∧ items ≡ₚ elements (pending_files sc)
  ∧ length c.1 = size (pending_files sc)
  ∧ (counts.1 + counts.2 = size (pending_files sc))%nat
  ∧ (∀ i r e, items !! i = Some r → c.1 !! i = Some (inl e) →
       (ERROR, MsgErrorConverting r.1 e) ∈ log c.2)
  ∧ (∀ counts', report_lines counts' = report_lines counts → counts' = counts).
Proof.
  intros Hne items c counts.
  split; [by apply process_batch_nonempty|].
  split; [apply set_iter_perm|].
  assert (Hlen : length c.1 = size (pending_files sc)).
  { unfold c. rewrite conversions_length. apply set_iter_length. }
  split; [done|].
  split; [unfold counts; simpl; by rewrite successes_failures|].
  split; [intros i r e; apply conversions_failures_logged|].
  intros counts'. apply report_lines_inj.
Qed.

(** *** The pending set *)


End SchedulerFacts.

(** ** Calls and timers in time *)

Section TimedFacts.
Context {W : Type} `{!Externals W}.
Variable self : config.
Variable convert_time : request → nat.
Import Text PathFacts.

#[local] Abbreviation delay := (batch_wait_time self).
#[local] Abbreviation timer_wake := (timer_wake self convert_time).
#[local] Abbreviation timer_run := (timer_run self convert_time).
#[local] Abbreviation fire_due := (fire_due self convert_time).
#[local] Abbreviation call_step := (call_step self convert_time).
#[local] Abbreviation simulate := (simulate self convert_time).

(** A timer that is finished or not yet due does nothing when woken. *)
Lemma timer_wake_idle t (s : sim W) i :
  (∀ tm, timers (sc s) !! i = Some tm → finished tm = true ∨ due t tm = false) →
  timer_wake t s i = s.
Proof.
  intros Hidle. unfold FileConverter.timer_wake, FileConverter.timer_run.
  destruct (timers (sc s) !! i) as [tm|]; [|done].
  destruct (Hidle tm eq_refl) as [Hf|Hd].
  - rewrite Hf. by destruct (due t tm).
  - by rewrite Hd.
Qed.

Lemma wake_all_idle t (s : sim W) l :
  (∀ i tm, i ∈ l → timers (sc s) !! i = Some tm →
           finished tm = true ∨ due t tm = false) →
  foldl (timer_wake t) s l = s.
Proof.
  induction l as [|i l IH]; intros Hidle; [done|]. simpl.
  rewrite timer_wake_idle.
  - apply IH. intros j tm Hj. apply Hidle. by right.
  - intros tm. apply Hidle. by left.
Qed.

(** With every earlier timer finished, only the current timer can run. *)
Lemma fire_due_tracked t (s : sim W) d b :
  tracked (sc s) d b → fire_due t s = timer_wake t s (pred (length (timers (sc s)))).
Proof.
  intros (fin & Ht & Hfin & _). unfold FileConverter.fire_due.
  rewrite Ht, length_app. simpl length. rewrite Nat.add_1_r, seq_S. simpl pred.
  rewrite foldl_app. simpl. rewrite wake_all_idle; [done|].
  intros i tm [_ Hi]%elem_of_seq. rewrite Ht, lookup_app_l by (simpl in Hi; lia).
  intros Hl. left. by eapply (Forall_lookup_1 _ _ _ _ Hfin).
Qed.

Lemma fire_due_not_yet t (s : sim W) d :
  tracked (sc s) d false → (t < d)%nat → fire_due (Some t) s = s.
Proof.
  intros Htr Hlt. rewrite (fire_due_tracked _ _ _ _ Htr).
  destruct Htr as (fin & Ht & _ & _).
  apply timer_wake_idle. rewrite Ht, length_app. simpl length.
  rewrite Nat.add_1_r. simpl pred. rewrite list_lookup_middle by done.
  intros tm [= <-]. right. simpl. apply Nat.leb_gt. lia.
Qed.

(** The current timer, due and not cancelled, fires the pending batch. *)
Lemma fire_due_fires t (s : sim W) d :
  tracked (sc s) d false → due t (mkTimer d false) = true →
  pending_files (sc s) ≠ ∅ →
  ∃ sc',
    fire_due t s
    = mkSim sc' (process_batch self (sc s) (st s)).2
            (d `max` lock_free_at s + pass_time convert_time (pending_files (sc s)))
            (batches s ++ [pending_files (sc s)])
    ∧ pending_files sc' = ∅ ∧ tracked sc' d true.
Proof.
  intros Htr Hdue Hne. rewrite (fire_due_tracked _ _ _ _ Htr).
  destruct Htr as (fin & Ht & Hfin & Hbt).
  unfold FileConverter.timer_wake, FileConverter.timer_run.
  rewrite Ht, length_app. simpl length. rewrite Nat.add_1_r. simpl pred.
  rewrite list_lookup_middle by done. rewrite Hdue. simpl finished. cbv iota.
  rewrite process_batch_nonempty by done. simpl settle.
  rewrite decide_False by done.
  eexists. split; [reflexivity|]. split; [done|].
  exists fin. simpl. split; [|done].
  rewrite Ht. replace (length fin) with (length fin + 0)%nat by lia.
  by rewrite (alter_app_r cancel fin [mkTimer d false] 0).
Qed.

(** [add_file] on a recognised path leaves its timer as the current one
    and cancels the one before. *)
Lemma add_file_tracked now p f sc (st : St W) d b :
  lower (suffix p) ∈ supported_formats →
  tracked sc d b →
  tracked (enqueued self now p f sc st) (now + delay) false.
Proof.
  intros Hs (fin & Ht & Hfin & Hbt). unfold enqueued.
  rewrite add_file_recognized by done. simpl.
  unfold cancel_batch_timer. rewrite Hbt, Ht.
  replace (length fin) with (length fin + 0)%nat at 1 2 by lia.
  rewrite (alter_app_r cancel fin [mkTimer d b] 0). simpl.
  exists (fin ++ [mkTimer d true])%list.
  split; [done|]. split; [|done].
  apply Forall_app. split; [done|]. by apply Forall_singleton.
Qed.

Lemma enqueued_pending now p f sc (st : St W) :
  lower (suffix p) ∈ supported_formats →
  pending_files (enqueued self now p f sc st) = {[ (p, f) ]} ∪ pending_files sc.
Proof. intros Hs. unfold enqueued. by rewrite add_file_recognized. Qed.

Lemma call_step_eq (s : sim W) c :
  call_step s c
  = let s1 := fire_due (Some c.1) s in
    let now := c.1 `max` lock_free_at s1 in
    mkSim (enqueued self now c.2.1 c.2.2 (sc s1) (st s1))
          (add_file self now c.2.1 c.2.2 (sc s1) (st s1)).2
          (lock_free_at s1) (batches s1).
Proof.
  unfold FileConverter.call_step, enqueued. cbv zeta.
  by destruct (add_file self _ c.2.1 c.2.2 _ _).
Qed.

Lemma pass_time_singleton r : pass_time convert_time {[ r ]} = convert_time r.
Proof. unfold pass_time. rewrite set_iter_singleton. simpl. lia. Qed.

(** Calls in a burst only restart the timer; the last one's timer fires
    the whole pending set. *)
Lemma burst_run rest : ∀ (s : sim W) tl,
  tracked (sc s) (tl + delay) false → pending_files (sc s) ≠ ∅ →
  (lock_free_at s ≤ tl)%nat →
  burst_after delay tl rest → recognized_calls rest →
  batches (fire_due None (foldl call_step s rest))
  = (batches s ++ [list_to_set (snd <$> rest) ∪ pending_files (sc s)])%list.
Proof.
  induction rest as [|c rest IH]; intros s tl Htr Hne Hlock Hburst Hrec.
  - simpl foldl. destruct (fire_due_fires None s _ Htr eq_refl Hne)
      as (sc' & -> & _ & _).
    simpl. by rewrite union_empty_l_L.
  - destruct Hburst as (Hle & Hlt & Hburst).
    apply Forall_cons in Hrec as [Hc Hrec].
    simpl foldl. rewrite call_step_eq, (fire_due_not_yet _ _ _ Htr Hlt). cbv zeta.
    rewrite Nat.max_l by lia.
    erewrite IH; [|by eapply add_file_tracked|..|exact Hburst|exact Hrec].
    + simpl batches. simpl sc. rewrite enqueued_pending by done.
      do 2 f_equal. rewrite fmap_cons, list_to_set_cons.
      destruct c as [t [p f]]. simpl. set_solver.
    + simpl sc. rewrite enqueued_pending by done. set_solver.
    + simpl. lia.
Qed.

(** Calls far enough apart each find the timer of the one before fired
    and its pass over. *)
Lemma spaced_run rest : ∀ (s : sim W) prev,
  tracked (sc s) (prev.1 + delay) false → pending_files (sc s) = {[ prev.2 ]} →
  (lock_free_at s ≤ prev.1)%nat →
  spaced_after delay convert_time prev rest → recognized_calls rest →
  batches (fire_due None (foldl call_step s rest))
  = (batches s ++ ((λ c, {[ c.2 ]}) <$> prev :: rest))%list.
Proof.
  induction rest as [|c rest IH]; intros s prev Htr Hp Hlock Hsp Hrec.
  - simpl foldl.
    assert (Hne : pending_files (sc s) ≠ ∅) by (rewrite Hp; set_solver).
    destruct (fire_due_fires None s _ Htr eq_refl Hne) as (sc' & -> & _ & _).
    simpl. by rewrite Hp.
  - destruct Hsp as (Hlt & Hpass & Hsp).
    apply Forall_cons in Hrec as [Hc Hrec].
    assert (Hne : pending_files (sc s) ≠ ∅) by (rewrite Hp; set_solver).
    assert (Hdue : due (Some c.1) (mkTimer (prev.1 + delay) false) = true).
    { simpl. apply Nat.leb_le. lia. }
    destruct (fire_due_fires (Some c.1) s _ Htr Hdue Hne)
      as (sc' & Hfire & Hempty & Htr').
    simpl foldl. rewrite call_step_eq, Hfire. cbv zeta. simpl lock_free_at.
    simpl sc. simpl st. simpl batches.
    rewrite Hp, pass_time_singleton.
    rewrite (Nat.max_l (prev.1 + delay)) by lia.
    rewrite (Nat.max_l c.1) by lia.
    erewrite IH; [|by eapply add_file_tracked|..|exact Hsp|exact Hrec].
    + simpl batches. by rewrite <- app_assoc.
    + simpl sc. rewrite enqueued_pending, Hempty by done.
      destruct c as [t [p f]]. simpl. by rewrite union_empty_r_L.
    + simpl. lia.
Qed.

(** The first call arms the first timer. *)
Lemma first_call (w : W) c :
  lower (suffix c.2.1) ∈ supported_formats →
  let s := call_step (start w) c in
  tracked (sc s) (c.1 + delay) false ∧ pending_files (sc s) = {[ c.2 ]}
  ∧ lock_free_at s = 0%nat ∧ batches s = [].
Proof.
  intros Hc s. unfold s. rewrite call_step_eq. cbv zeta.
  change (fire_due (Some c.1) (start w)) with (start w). simpl.
  rewrite Nat.max_0_r.
  split; [|split; [|done]].
  - unfold enqueued. rewrite add_file_recognized by done. simpl.
    exists []. by split.
  - rewrite enqueued_pending by done. destruct c as [t [p f]]. simpl.
    by rewrite union_empty_r_L.
Qed.

(** C1, as the code has it: the timer runs for 100 ms by default; a
    call of [add_file] on a recognised path cancels the current timer
    and starts one due [batch_wait_time] after the call; calls that each
    arrive less than that delay after the one before fire one batch, the
    set of all their requests; calls that each arrive more than the delay
    after the one before, and not before the pass over the one before is
    over, fire one batch each.  The pass holds the lock that [add_file]
    takes, so a call that arrives during a pass waits for its end. *)
Theorem debounce_contract :
  (∀ mgd bins, batch_wait_time (init None mgd bins) = 100%nat)
  ∧ (∀ now p f sc (st : St W) i tm,
       lower (suffix p) ∈ supported_formats →
       batch_timer sc = Some i → timers sc !! i = Some tm →
       timers (enqueued self now p f sc st) !! i = Some (cancel tm))
  ∧ (∀ now p f sc (st : St W),
       lower (suffix p) ∈ supported_formats →
       ∃ j, batch_timer (enqueued self now p f sc st) = Some j
            ∧ timers (enqueued self now p f sc st) !! j
              = Some (mkTimer (now + delay) false))
  ∧ (∀ (w : W) c rest,
       recognized_calls (c :: rest) → burst_after delay c.1 rest →
       batches (simulate w (c :: rest)) = [list_to_set (snd <$> c :: rest)])
  ∧ (∀ (w : W) c rest,
       recognized_calls (c :: rest) → spaced_after delay convert_time c rest →
       batches (simulate w (c :: rest)) = (λ c, {[ c.2 ]}) <$> c :: rest).
Proof.
  split; [done|]. split; [|split; [|split]].
  - intros now p f sc st i tm Hs Hbt Hi. unfold enqueued.
    rewrite add_file_recognized by done. simpl.
    unfold cancel_batch_timer. rewrite Hbt.
    rewrite lookup_app_l.
    + by rewrite list_lookup_alter_eq, Hi.
    + rewrite length_alter. by eapply lookup_lt_Some.
  - intros now p f sc st Hs. unfold enqueued.
    rewrite add_file_recognized by done. simpl.
    eexists. split; [reflexivity|]. by rewrite list_lookup_middle.
  - intros w c rest [Hc Hrec]%Forall_cons Hburst.
    destruct (first_call w c Hc) as (Htr & Hp & Hlock & Hb).
    unfold FileConverter.simulate. simpl foldl.
    erewrite burst_run; [|exact Htr|..|exact Hburst|exact Hrec].
    + rewrite Hb, Hp, app_nil_l, fmap_cons, list_to_set_cons. f_equal.
      set_solver.
    + rewrite Hp. set_solver.
    + rewrite Hlock. lia.
  - intros w c rest [Hc Hrec]%Forall_cons Hsp.
    destruct (first_call w c Hc) as (Htr & Hp & Hlock & Hb).
    unfold FileConverter.simulate. simpl foldl.
    erewrite spaced_run; [|exact Htr|exact Hp|..|exact Hsp|exact Hrec].
    + by rewrite Hb.
    + rewrite Hlock. lia.
Qed.

(** *** The default format *)

Lemma default_resolved p c :
  classify (lower (suffix p)) = Some c →
  resolved_output_format p None = Some (class_default c).
Proof.
  unfold resolved_output_format, resolve_format, classify. simpl falsy. cbv iota.
  repeat case_decide; by intros [= <-].
Qed.

Lemma photo_png_recognized : lower (suffix "photo.png") ∈ supported_formats.
Proof. by apply (bool_decide_unpack _). Qed.

Lemma photo_png_skipped (st : St W) :
  convert_file self "photo.png" None st
  = (inr tt, with_log st INFO (MsgSkipping "photo.png")).
Proof. reflexivity. Qed.

Lemma png_in_image_mapping : image_format_mapping !! "png" = Some "PNG".
Proof. reflexivity. Qed.

(** An image whose format is not the default is opened and saved under
    the default format. *)
Lemma convert_image_default p (st : St W) :
  classify (lower (suffix p)) = Some Image → input_format p ≠ "png" →
  history (convert_file self p None st).2
  = (history st
     ++ CallImageOpen p
        :: match image_open p (world st) with
           | inr _ =>
               [CallImageSave (drop_end (String.length (suffix p)) p ++ ".png")%string
                              "PNG" None]
           | inl _ => []
           end)%list.
Proof.
  intros Hc Hdiff. unfold convert_file. rewrite logged_history.
  assert (Hi : lower (suffix p) ∈ image_formats).
  { revert Hc. unfold classify. by repeat case_decide. }
  unfold resolve_format. change (falsy None) with true. cbv iota.
  rewrite !(decide_True (P:=_ ∈ image_formats)) by done.
  change (lower default_format) with "png".
  rewrite with_suffix_ok; [|done|done|by eapply classified_name].
  apply String.eqb_neq in Hdiff. rewrite Hdiff.
  rewrite (decide_True (P:=_ ∈ image_formats)) by done.
  rewrite decide_False by (by rewrite png_in_image_mapping).
  unfold _convert_image. rewrite png_in_image_mapping.
  simpl String.eqb. cbv iota. simpl andb. cbv iota.
  unfold bind, invoke, logging.
  destruct (image_open p (world st)) as [msg|img]; simpl; [done|].
  destruct (image_save img _ "PNG" None (world st)) as [[msg|[]] w'];
    simpl; by rewrite <- app_assoc.
Qed.

(** C3, as the code has it: without an explicit format [convert_file]
    resolves the default format of the source's class.  The default of
    the image class is png, the format [photo.png] already has: when
    [photo.png] is enqueued alone without a format, the batch that fires
    holds that request, its conversion is skipped and counted as a
    success, and the world is untouched: no file is produced.  An image
    of another format is opened and saved next to the source under the
    suffix [.png]. *)
Theorem default_format_selected :
  (∀ p c, classify (lower (suffix p)) = Some c →
          resolved_output_format p None = Some (class_default c))
  ∧ (∀ (w : W) t,
       let s := simulate w [(t, ("photo.png", None))] in
       batches s = [ {[ ("photo.png", None) ]} ]
       ∧ world (st s) = w ∧ history (st s) = []
       ∧ log (st s) = [ (INFO, MsgAdded "photo.png" None);
                        (INFO, MsgProcessingBatch 1);
                        (INFO, MsgSkipping "photo.png");
                        (INFO, MsgSuccessCount 1) ])
  ∧ (∀ p (st : St W),
       classify (lower (suffix p)) = Some Image → input_format p ≠ "png" →
       history (convert_file self p None st).2
       = (history st
          ++ CallImageOpen p
             :: match image_open p (world st) with
                | inr _ =>
                    [CallImageSave
                       (drop_end (String.length (suffix p)) p ++ ".png")%string
                       "PNG" None]
                | inl _ => []
                end)%list).
Proof.
  split; [exact default_resolved|]. split; [|exact convert_image_default].
  intros w t s.
  pose (c := (t, ("photo.png", None)) : nat * request).
  destruct (first_call w c photo_png_recognized) as (Htr & Hp & Hlock & Hb).
  assert (Hne : pending_files (sc (call_step (start w) c)) ≠ ∅)
    by (rewrite Hp; set_solver).
  destruct (fire_due_fires None _ _ Htr eq_refl Hne) as (sc' & Hfire & _ & _).
  unfold s, FileConverter.simulate. simpl foldl. fold c. rewrite Hfire.
  simpl batches. simpl st. rewrite Hb, Hp. split; [done|].
  rewrite process_batch_nonempty by done. rewrite Hp.
  rewrite set_iter_singleton, size_singleton. simpl conversions.
  rewrite photo_png_skipped.
  rewrite call_step_eq. simpl.
  change (fire_due (Some t) (start w)) with (start w).
  rewrite (add_file_recognized self _ "photo.png" None) by exact photo_png_recognized.
  done.
Qed.

End TimedFacts.

(** ** Threads and the lock *)

Section ThreadFacts.
Context {W : Type} `{!Externals W}.
Variable self : config.
Import Text PathFacts.

#[local] Abbreviation step := (step self).
#[local] Abbreviation reachable := (reachable self).

Lemma started_not_running before after j t :
  started before after !! j = Some t → running t = false.
Proof.
  unfold started. rewrite list_lookup_fmap.
  destruct (seq _ _ !! j); simpl; [|done]. by intros [= <-].
Qed.

Lemma lock_is_pass_arrive (s : sys W) p f :
  lock_is_pass s →
  lock_is_pass (mkSys (lock s) (shared s) (state s) (threads s ++ [AddWaiting p f])).
Proof.
  intros [Hrun Hlock]. split; simpl.
  - intros k t [Hk|[_ Hk]]%lookup_app_Some Ht; [by eapply Hrun|].
    destruct (k - length (threads s))%nat; simplify_eq/=.
  - intros k Hk. destruct (Hlock k Hk) as (t & Ht & Hr).
    exists t. split; [|done]. by apply lookup_app_l_Some.
Qed.

(** With the lock free no pass is in its loop. *)
Lemma lock_free_idle (s : sys W) k t :
  lock_is_pass s → lock s = None → threads s !! k = Some t → running t = false.
Proof.
  intros [Hrun _] Hfree Hk. destruct (running t) eqn:Hr; [|done].
  specialize (Hrun k t Hk Hr). congruence.
Qed.

Lemma lock_is_pass_step (s s' : sys W) k :
  lock_is_pass s → step k s s' → lock_is_pass s'.
Proof.
  intros Hinv Hstep. pose proof Hinv as [Hrun Hlock].
  destruct Hstep as [s now p f sc' st' Hk Hfree Hadd
                    | s i tm Hk Hi
                    | s i Hk Hfree Hempty
                    | s i Hk Hfree Hne
                    | s i r todo counts counts' st' Hk Hitem
                    | s i counts st' Hk Hrep]; split; simpl.
  - intros j t [Hj|[_ Hj]]%lookup_app_Some Ht.
    + apply list_lookup_insert_Some in Hj as [(_ & <- & _)|[_ Hj]]; [done|].
      by rewrite (lock_free_idle s j t) in Ht.
    + by rewrite (started_not_running _ _ _ _ Hj) in Ht.
  - done.
  - intros j t Hj Ht.
    apply list_lookup_insert_Some in Hj as [(_ & <- & _)|[Hne Hj]].
    + by destruct (finished tm).
    + by eapply Hrun.
  - intros j Hj. destruct (Hlock j Hj) as (t & Ht & Hr).
    exists t. split; [|done]. rewrite list_lookup_insert_ne; [done|].
    intros ->. rewrite Hk in Ht. by simplify_eq.
  - intros j t Hj Ht.
    apply list_lookup_insert_Some in Hj as [(_ & <- & _)|[_ Hj]]; [done|].
    by rewrite (lock_free_idle s j t) in Ht.
  - done.
  - intros j t Hj Ht.
    apply list_lookup_insert_Some in Hj as [(<- & _ & _)|[_ Hj]]; [done|].
    by rewrite (lock_free_idle s j t) in Ht.
  - intros j [= <-]. eexists.
    split; [apply list_lookup_insert_eq; by eapply lookup_lt_Some|done].
  - intros j t Hj Ht. rewrite (Hrun k _ Hk eq_refl).
    apply list_lookup_insert_Some in Hj as [(<- & _ & _)|[_ Hj]]; [done|].
    rewrite <- (Hrun k _ Hk eq_refl). by eapply Hrun.
  - intros j Hj. pose proof (Hrun k _ Hk eq_refl) as Hheld.
    assert (j = k) as -> by congruence. eexists.
    split; [apply list_lookup_insert_eq; by eapply lookup_lt_Some|done].
  - intros j t Hj Ht. pose proof (Hrun k _ Hk eq_refl) as Hheld.
    apply list_lookup_insert_Some in Hj as [(_ & <- & _)|[Hne Hj]]; [done|].
    specialize (Hrun j t Hj Ht). congruence.
  - done.
Qed.

Lemma reachable_lock_is_pass (s : sys W) : reachable s → lock_is_pass s.
Proof.
  induction 1 as [st|s p f _ IH|s k s' _ IH Hstep].
  - split; simpl; [|done]. intros k t Hk. by rewrite lookup_nil in Hk.
  - by apply lock_is_pass_arrive.
  - by eapply lock_is_pass_step.
Qed.

(** A caller at the [with] cannot move while the lock is held. *)
Lemma add_waits (s : sys W) k j p f s' :
  lock s = Some k → threads s !! j = Some (AddWaiting p f) → ¬ step j s s'.
Proof.
  intros Hheld Hj Hstep. destruct Hstep; simplify_eq.
Qed.

(** A step of one thread leaves the other threads where they are. *)
Lemma step_others (s s' : sys W) j k t :
  j ≠ k → threads s !! k = Some t → step j s s' → threads s' !! k = Some t.
Proof.
  intros Hne Hk Hstep. destruct Hstep; simpl;
    try (by rewrite list_lookup_insert_ne).
  apply lookup_app_l_Some. by rewrite list_lookup_insert_ne.
Qed.

(** The entry of a pass: the pending set is swapped for the empty one,
    its items are the thread's own, and the lock is taken. *)
Lemma batch_enter (s s' : sys W) k i :
  threads s !! k = Some (BatchWaiting i) → pending_files (shared s) ≠ ∅ →
  step k s s' →
  lock s = None ∧ lock s' = Some k ∧ pending_files (shared s') = ∅
  ∧ threads s' !! k
    = Some (BatchRunning i (set_iter (pending_files (shared s))) (0, 0)%nat).
Proof.
  intros Hk Hne Hstep. destruct Hstep; simplify_eq. simpl.
  split; [done|]. split; [done|]. split; [done|].
  apply list_lookup_insert_eq. by eapply lookup_lt_Some.
Qed.

Lemma batch_exit (s s' : sys W) k i counts :
  threads s !! k = Some (BatchRunning i [] counts) → step k s s' → lock s' = None.
Proof. intros Hk Hstep. by destruct Hstep; simplify_eq. Qed.

(** A caller that moves found the lock free and adds to the pending set
    of that moment. *)
Lemma add_accumulates (s s' : sys W) j p f :
  threads s !! j = Some (AddWaiting p f) → step j s s' →
  lower (suffix p) ∈ supported_formats →
  lock s = None
  ∧ pending_files (shared s') = {[ (p, f) ]} ∪ pending_files (shared s).
Proof.
  intros Hj Hstep Hs. destruct Hstep; simplify_eq. split; [done|].
  rewrite add_file_recognized in * by done. by simplify_eq.
Qed.

(** The loop, run to its end, is [process_items] followed by [report]. *)
Lemma loop_steps k i todo : ∀ (s : sys W) counts,
  threads s !! k = Some (BatchRunning i todo counts) →
  ∃ s', rtc (step k) s s'
        ∧ threads s' = <[k := Returned]> (threads s)
        ∧ lock s' = None
        ∧ shared s' = set_finished i (shared s)
        ∧ state s' = (bind (process_items self todo counts) report (state s)).2.
Proof.
  induction todo as [|r todo IH]; intros s counts Hk.
  - eexists. split; [|split; [|split; [|split]]].
    + eapply rtc_once. eapply step_batch_exit; [exact Hk|apply report_eq].
    + done.
    + done.
    + done.
    + simpl. unfold bind, ret. by rewrite report_eq.
  - destruct (process_item self r counts (state s)) as [rc st1] eqn:Hitem.
    assert (∃ counts1, rc = inr counts1) as [counts1 ->].
    { rewrite process_item_eq in Hitem.
      destruct (convert_file self r.1 r.2 (state s)) as [[e|[]] st0];
        simplify_eq; eauto. }
    pose (s1 := mkSys (lock s) (shared s) st1
                      (<[k := BatchRunning i todo counts1]> (threads s))).
    destruct (IH s1 counts1) as (s' & Hsteps & Hthreads & Hlock & Hshared & Hstate).
    { simpl. apply list_lookup_insert_eq. by eapply lookup_lt_Some. }
    exists s'. split; [|split; [|split; [|split]]].
    + eapply rtc_l; [|exact Hsteps]. eapply step_item; [exact Hk|exact Hitem].
    + rewrite Hthreads. simpl. by rewrite list_insert_insert_eq.
    + done.
    + done.
    + rewrite Hstate. simpl process_items. simpl state. unfold bind.
      by rewrite Hitem.
Qed.

(** A pass that runs from the [with] to its return does what
    [process_batch] does. *)
Lemma pass_is_process_batch (s : sys W) k i :
  threads s !! k = Some (BatchWaiting i) → lock s = None →
  ∃ s', rtc (step k) s s'
        ∧ threads s' !! k = Some Returned
        ∧ lock s' = None
        ∧ shared s'
          = set_finished i (settle (shared s)
                              (process_batch self (shared s) (state s)).1)
        ∧ state s' = (process_batch self (shared s) (state s)).2.
Proof.
  intros Hk Hfree.
  assert (Hlt : (k < length (threads s))%nat) by (by eapply lookup_lt_Some).
  destruct (decide (pending_files (shared s) = ∅)) as [He|Hne].
  - eexists. split; [eapply rtc_once; by eapply step_batch_empty|].
    rewrite process_batch_empty by done. simpl.
    split; [by apply list_lookup_insert_eq|done].
  - set (s1 := mkSys (Some k)
                 (mkSched ∅ (timers (shared s)) (batch_timer (shared s)))
                 (mkSt (world (state s))
                       (log (state s)
                        ++ [(INFO, MsgProcessingBatch (size (pending_files (shared s))))])
                       (history (state s)))
                 (<[k := BatchRunning i (set_iter (pending_files (shared s))) (0, 0)%nat]>
                    (threads s))).
    destruct (loop_steps k i (set_iter (pending_files (shared s))) s1 (0, 0)%nat)
      as (s' & Hsteps & Hthreads & Hlock & Hshared & Hstate).
    { simpl. by apply list_lookup_insert_eq. }
    exists s'. split; [|split; [|split; [|split]]].
    + eapply rtc_l; [|exact Hsteps]. by eapply step_batch_enter.
    + rewrite Hthreads. simpl. apply list_lookup_insert_eq.
      by rewrite length_insert.
    + done.
    + rewrite Hshared. unfold process_batch. rewrite decide_False by done.
      simpl shared. unfold bind at 1. unfold logging at 1. unfold bind at 1.
      rewrite process_items_conversions. unfold bind. by rewrite report_eq.
    + rewrite Hstate. unfold process_batch. rewrite decide_False by done.
      simpl state. unfold bind at 2. unfold logging at 1.
      unfold bind. rewrite process_items_conversions. by rewrite !report_eq.
Qed.

(** C2, as the code has it: a pass over a non-empty pending set swaps
    the set for an empty one at its entry and converts the captured
    items while it holds the lock: in every state the converter can reach
    a pass in its loop is the holder of the lock and the only such pass,
    and no caller of [add_file] can move.  The other threads never touch
    the captured items; the pass releases the lock at the end of its
    loop; a caller that then moves adds its request to the pending set
    of that moment.  Run without interruption, the steps of a pass do
    what [process_batch] does. *)
Theorem pass_keeps_lock :
  (∀ (s : sys W) k i todo counts,
     reachable s → threads s !! k = Some (BatchRunning i todo counts) →
     lock s = Some k
     ∧ (∀ k' t, threads s !! k' = Some t → running t = true → k' = k)
     ∧ (∀ j p f s', threads s !! j = Some (AddWaiting p f) → ¬ step j s s'))
  ∧ (∀ (s s' : sys W) k i,
       threads s !! k = Some (BatchWaiting i) → pending_files (shared s) ≠ ∅ →
       step k s s' →
       lock s = None ∧ lock s' = Some k ∧ pending_files (shared s') = ∅
       ∧ threads s' !! k
         = Some (BatchRunning i (set_iter (pending_files (shared s))) (0, 0)%nat))
  ∧ (∀ (s s' : sys W) j k t,
       j ≠ k → threads s !! k = Some t → step j s s' → threads s' !! k = Some t)
  ∧ (∀ (s s' : sys W) k i counts,
       threads s !! k = Some (BatchRunning i [] counts) → step k s s' →
       lock s' = None)
  ∧ (∀ (s s' : sys W) j p f,
       threads s !! j = Some (AddWaiting p f) → step j s s' →
       lower (suffix p) ∈ supported_formats →
       lock s = None
       ∧ pending_files (shared s') = {[ (p, f) ]} ∪ pending_files (shared s))
  ∧ (∀ (s : sys W) k i,
       threads s !! k = Some (BatchWaiting i) → lock s = None →
       ∃ s', rtc (step k) s s'
             ∧ threads s' !! k = Some Returned
             ∧ lock s' = None
             ∧ shared s'
               = set_finished i (settle (shared s)
                                   (process_batch self (shared s) (state s)).1)
             ∧ state s' = (process_batch self (shared s) (state s)).2).
Proof.
  split; [|split; [exact batch_enter|split; [exact step_others|
    split; [exact batch_exit|split; [exact add_accumulates|
    exact pass_is_process_batch]]]]].
  intros s k i todo counts Hreach Hk.
  destruct (reachable_lock_is_pass s Hreach) as [Hrun Hlock].
  pose proof (Hrun k _ Hk eq_refl) as Hheld.
  split; [done|]. split.
  - intros k' t Hk' Ht. specialize (Hrun k' t Hk' Ht). congruence.
  - intros j p f s' Hj. by eapply add_waits.
Qed.

End ThreadFacts.

(** ** The statements at concrete inputs *)

Module Concrete.
Import Scripted.

Lemma mid_pass_reachable : reachable converter mid_pass.
Proof.
  pose (s0 := mkSys None new_sched (fresh []) [] : sys world).
  pose (s1 := mkSys None new_sched (fresh []) [AddWaiting "a.png" (Some "jpg")]
              : sys world).
  pose (s2 := mkSys None
                (mkSched {[ ("a.png", Some "jpg") ]} [mkTimer 100 false] (Some 0%nat))
                (mkSt [] [(INFO, MsgAdded "a.png" (Some "jpg"))] [])
                [Returned; TimerSleeping 0] : sys world).
  pose (s3 := mkSys None
                (mkSched {[ ("a.png", Some "jpg") ]} [mkTimer 100 false] (Some 0%nat))
                (mkSt [] [(INFO, MsgAdded "a.png" (Some "jpg"))] [])
                [Returned; BatchWaiting 0] : sys world).
  pose (s4 := mkSys (Some 1%nat)
                (mkSched ∅ [mkTimer 100 false] (Some 0%nat))
                (mkSt [] [ (INFO, MsgAdded "a.png" (Some "jpg"));
                           (INFO, MsgProcessingBatch 1) ] [])
                [Returned; BatchRunning 0 [("a.png", Some "jpg")] (0, 0)%nat]
              : sys world).
  assert (R0 : reachable converter s0) by constructor.
  assert (R1 : reachable converter s1)
    by exact (reach_arrive converter s0 "a.png" (Some "jpg") R0).
  assert (R2 : reachable converter s2).
  { apply (reach_step converter s1 0 s2 R1).
    exact (step_add converter 0 s1 0 "a.png" (Some "jpg") _ _
             eq_refl eq_refl eq_refl). }
  assert (R3 : reachable converter s3).
  { apply (reach_step converter s2 1 s3 R2).
    exact (step_wake converter 1 s2 0 (mkTimer 100 false) eq_refl eq_refl). }
  assert (R4 : reachable converter s4).
  { apply (reach_step converter s3 1 s4 R3).
    assert (Hne : pending_files (shared s3) ≠ ∅).
    { simpl. apply non_empty_singleton_L. }
    exact (step_batch_enter converter 1 s3 0 eq_refl eq_refl Hne). }
  exact (reach_arrive converter s4 "b.png" (Some "jpg") R4).
Qed.

Lemma recognized_by_computation (calls : list (nat * request)) :
  bool_decide (recognized_calls calls) = true → recognized_calls calls.
Proof. apply bool_decide_eq_true_1. Qed.

(** *** C1 *)

(** Three calls 150 ms and 460 ms apart, a delay of 100 ms, conversions
    of 500 ms: the second call waits for the first pass and the third
    call cancels its timer, so two batches fire, not three. *)
Lemma spaced_calls_coalesce :
  batch_wait_time converter = 100%nat
  ∧ (0 + 100 < 150)%nat ∧ (150 + 100 < 610)%nat
  ∧ recognized_calls slow_calls
  ∧ batches (simulate converter (λ _, 500%nat) [] slow_calls)
    = [ {[ ("a.png", Some "jpg") ]};
        {[ ("b.png", Some "jpg"); ("c.png", Some "jpg") ]} ].
Proof.
  split; [reflexivity|]. split; [lia|]. split; [lia|].
  split; [by apply recognized_by_computation|]. by vm_compute.
Qed.

Lemma debounce_contract_witness :
  batches (simulate converter (λ _, 500%nat) []
             [ (0, ("a.png", Some "jpg")); (50, ("b.png", Some "jpg"));
               (149, ("a.png", Some "jpg")) ]%nat)
  = [ list_to_set [ ("a.png", Some "jpg"); ("b.png", Some "jpg");
                    ("a.png", Some "jpg") ] ]
  ∧ batches (simulate converter (λ _, 500%nat) []
               [ (0, ("a.png", Some "jpg")); (700, ("b.png", Some "jpg"));
                 (1400, ("c.png", Some "jpg")) ]%nat)
    = [ {[ ("a.png", Some "jpg") ]}; {[ ("b.png", Some "jpg") ]};
        {[ ("c.png", Some "jpg") ]} ].
Proof.
  destruct (debounce_contract converter (λ _, 500%nat))
    as (_ & _ & _ & Hburst & Hspaced).
  split.
  - apply (Hburst [] (0, ("a.png", Some "jpg"))%nat
             [ (50, ("b.png", Some "jpg")); (149, ("a.png", Some "jpg")) ]%nat).
    + by apply recognized_by_computation.
    + change (batch_wait_time converter) with 100%nat. simpl. lia.
  - apply (Hspaced [] (0, ("a.png", Some "jpg"))%nat
             [ (700, ("b.png", Some "jpg")); (1400, ("c.png", Some "jpg")) ]%nat).
    + by apply recognized_by_computation.
    + change (batch_wait_time converter) with 100%nat. simpl. lia.
Defined.

(** *** C2 *)

(** In the middle of the pass over [a.png] the lock is held by the pass
    and the call for [b.png] cannot move. *)
Lemma enqueue_waits_mid_pass :
  reachable converter mid_pass
  ∧ threads mid_pass !! 1%nat
    = Some (BatchRunning 0 [("a.png", Some "jpg")] (0, 0)%nat)
  ∧ threads mid_pass !! 2%nat = Some (AddWaiting "b.png" (Some "jpg"))
  ∧ lock mid_pass = Some 1%nat
  ∧ ∀ s', ¬ step converter 2 mid_pass s'.
Proof.
  split; [exact mid_pass_reachable|]. split; [done|]. split; [done|].
  split; [done|]. intros s' Hstep. inversion Hstep; simplify_eq.
Qed.

Lemma pass_keeps_lock_witness :
  lock mid_pass = Some 1%nat
  ∧ ∀ j p f s', threads mid_pass !! j = Some (AddWaiting p f) →
                ¬ step converter j mid_pass s'.
Proof.
  destruct (pass_keeps_lock converter) as (Hpass & _).
  destruct (Hpass mid_pass 1%nat 0%nat [("a.png", Some "jpg")] (0, 0)%nat
              mid_pass_reachable eq_refl) as (Hheld & _ & Hwait).
  by split.
Defined.

(** *** C3 *)

(** [photo.png] enqueued alone without a format: the pass skips it, and
    nothing is invoked, no image is saved. *)
Lemma photo_png_not_converted :
  resolved_output_format "photo.png" None = Some "png"
  ∧ st (simulate converter (λ _, 0%nat) [] [(0%nat, ("photo.png", None))])
    = mkSt [] [ (INFO, MsgAdded "photo.png" None);
                (INFO, MsgProcessingBatch 1);
                (INFO, MsgSkipping "photo.png");
                (INFO, MsgSuccessCount 1) ] [].
Proof. split; by vm_compute. Qed.

Lemma default_format_selected_witness :
  history (convert_file converter "photo.jpg" None (fresh [])).2
  = [ CallImageOpen "photo.jpg"; CallImageSave "photo.png" "PNG" None ].
Proof.
  destruct (default_format_selected converter (λ _, 0%nat)) as (_ & _ & Himg).
  by apply (Himg "photo.jpg" (fresh [])).
Defined.

(** *** C4 *)

Lemma gif_duration_exceeded_witness :
  convert_file cli_converter "clip.mov" (Some "gif") (fresh [ok "20"])
  = (inl (ValueError (DurationExceeded 20 15)),
     mkSt [] [ (ERROR, MsgVideoError (ValueError (DurationExceeded 20 15)));
               (ERROR, MsgFailedToConvert "clip.mov"
                         (ValueError (DurationExceeded 20 15))) ]
          [ CallSubprocess [ "ffprobe"; "-v"; "error"; "-show_entries";
                             "format=duration"; "-of"; "json"; "clip.mov" ] ]).
Proof.
  destruct (gif_duration_exceeded_fails cli_converter) as (_ & Hfail).
  by apply (Hfail "clip.mov" "gif" (fresh [ok "20"]) (mkCompleted 0 "20" "") []
              20%float).
Defined.

(** *** C5 *)

(** One failure among three items: the two others are converted, and the
    pass reports two successes and one failure. *)
Lemma batch_failure_isolation_witness :
  pending_files three_audio ≠ ∅
  ∧ process_batch converter three_audio (fresh [ok ""; failed "boom"])
    = (inr new_sched,
       mkSt []
            [ (INFO, MsgProcessingBatch 3);
              (INFO, MsgConverted "c.mp3" "c.wav");
              (ERROR, MsgAudioError (FFmpegError "boom"));
              (ERROR, MsgFailedToConvert "a.mp3" (FFmpegError "boom"));
              (ERROR, MsgErrorConverting "a.mp3" (FFmpegError "boom"));
              (INFO, MsgConverted "b.mp3" "b.wav");
              (INFO, MsgSuccessCount 2); (WARNING, MsgFailCount 1) ]
            [ CallSubprocess [ "ffmpeg"; "-i"; "c.mp3"; "-y"; "-loglevel"; "error";
                               "-hide_banner"; "c.wav" ];
              CallSubprocess [ "ffmpeg"; "-i"; "a.mp3"; "-y"; "-loglevel"; "error";
                               "-hide_banner"; "a.wav" ];
              CallSubprocess [ "ffmpeg"; "-i"; "b.mp3"; "-y"; "-loglevel"; "error";
                               "-hide_banner"; "b.wav" ] ]).
Proof.
  assert (Hne : pending_files three_audio ≠ ∅) by (by vm_compute).
  split; [exact Hne|].
  destruct (batch_failure_isolation converter three_audio
              (fresh [ok ""; failed "boom"]) Hne) as (-> & _).
  by vm_compute.
Defined.

(** *** C6 *)


(** *** C7 *)

Lemma same_format_skip_witness :
  resolved_output_format "photo.png" None = Some "png"
  ∧ input_format "photo.png" = "png"
  ∧ convert_file converter "photo.png" None (fresh [])
    = (inr tt, with_log (fresh []) INFO (MsgSkipping "photo.png")).
Proof.
  split; [reflexivity|]. split; [reflexivity|].
  by apply (same_format_skip converter "photo.png" None "png").
Defined.

(** *** C8 *)

(** A clip of 10 seconds under a maximum of 15 whose palette pass fails:
    the render pass is not invoked, one transcoder invocation in all. *)
Lemma palette_failure_single_pass :
  ltb (max_gif_duration cli_converter) 10 = false
  ∧ history (convert_file cli_converter "clip.mov" (Some "gif")
               (fresh [ok "10"; failed "boom"])).2
    = [ CallSubprocess [ "ffprobe"; "-v"; "error"; "-show_entries";
                         "format=duration"; "-of"; "json"; "clip.mov" ];
        CallMkdtemp;
        CallSubprocess [ "ffmpeg"; "-i"; "clip.mov"; "-vf";
                         "fps=10,scale=480:-1:flags=lanczos,palettegen"; "-y";
                         "-loglevel"; "error"; "-hide_banner"; "T\palette.png" ];
        CallRmtree "T" ].
Proof. split; reflexivity. Qed.

Lemma gif_two_pass_pipeline_witness :
  history (_convert_video cli_converter "clip.mov" "clip.gif" "gif"
             (fresh [ok "10"])).2
  = [ CallSubprocess [ "ffprobe"; "-v"; "error"; "-show_entries";
                       "format=duration"; "-of"; "json"; "clip.mov" ];
      CallMkdtemp;
      CallSubprocess [ "ffmpeg"; "-i"; "clip.mov"; "-vf";
                       "fps=10,scale=480:-1:flags=lanczos,palettegen"; "-y";
                       "-loglevel"; "error"; "-hide_banner"; "T\palette.png" ];
      CallSubprocess [ "ffmpeg"; "-i"; "clip.mov"; "-i"; "T\palette.png";
                       "-filter_complex";
                       "fps=10,scale=480:-1:flags=lanczos[x];[x][1:v]paletteuse";
                       "-y"; "-loglevel"; "error"; "-hide_banner"; "clip.gif" ];
      CallRmtree "T" ].
Proof.
  exact (gif_two_pass_pipeline cli_converter "clip.mov" "clip.gif"
           (fresh [ok "10"]) (mkCompleted 0 "10" "") [] 10%float "T" []
           (ok "") [] eq_refl eq_refl eq_refl eq_refl eq_refl eq_refl eq_refl
           eq_refl).
Defined.

(** *** C9 *)

(** A format with a path separator, absent from the audio table: the
    error is the one of [with_suffix]. *)
Lemma separator_format_invalid_suffix :
  resolved_output_format "a.mp3" (Some "x/y") = Some "x/y"
  ∧ input_format "a.mp3" = "mp3"
  ∧ classify (Text.lower (suffix "a.mp3")) = Some Audio
  ∧ format_mapping Audio !! "x/y" = None
  ∧ convert_file converter "a.mp3" (Some "x/y") (fresh [])
    = (inl (ValueError (InvalidSuffix ".x/y")),
       with_log (fresh []) ERROR
         (MsgFailedToConvert "a.mp3" (ValueError (InvalidSuffix ".x/y")))).
Proof. repeat split; reflexivity. Qed.

Lemma unsupported_output_witness :
  convert_file converter "a.mp3" (Some "xyz") (fresh [])
  = (inl (ValueError (UnsupportedAudioOutput "xyz")),
     with_log (fresh []) ERROR
       (MsgFailedToConvert "a.mp3" (ValueError (UnsupportedAudioOutput "xyz")))).
Proof.
  by apply (unsupported_output_fails_before_dispatch converter
              "a.mp3" (Some "xyz") "xyz" Audio (fresh [])).
Defined.

(** *** C10 *)

Lemma unrecognized_source_witness :
  convert_file converter "notes.txt" None (fresh [])
  = (inl AttributeError,
     with_log (fresh []) ERROR (MsgFailedToConvert "notes.txt" AttributeError)).
Proof.
  destruct (unrecognized_source_without_format converter) as (Hattr & _).
  apply (Hattr "notes.txt" (fresh [])). by vm_compute.
Defined.

End Concrete.

(** * Further properties *)

(** ** Timers and threads *)

Section ThreadLife.
Context {W : Type} `{!Externals W}.
Variable self : config.
Import Text PathFacts.

#[local] Abbreviation step := (step self).
#[local] Abbreviation reachable := (reachable self).

Lemma add_file_returns now p f sc (st : St W) :
  ∃ sc' st', add_file self now p f sc st = (inr sc', st').
Proof.
  destruct (decide (lower (suffix p) ∈ supported_formats)).
  - rewrite add_file_recognized by done. eauto.
  - rewrite add_file_unrecognized by done. eauto.
Qed.

Lemma add_file_timers_grow now p f sc (st : St W) sc' st' :
  add_file self now p f sc st = (inr sc', st') →
  (length (timers sc) ≤ length (timers sc'))%nat.
Proof.
  destruct (decide (lower (suffix p) ∈ supported_formats)).
  - rewrite add_file_recognized by done. intros [= <- <-]. simpl.
    rewrite length_app. unfold cancel_batch_timer.
    destruct (batch_timer sc); rewrite ?length_alter; lia.
  - rewrite add_file_unrecognized by done. by intros [= <- <-].
Qed.

Lemma add_file_one_armed now p f sc (st : St W) sc' st' :
  add_file self now p f sc st = (inr sc', st') → one_armed sc → one_armed sc'.
Proof.
  destruct (decide (lower (suffix p) ∈ supported_formats)).
  - rewrite add_file_recognized by done. intros [= <- <-] Harmed i tm. simpl.
    intros [Hi|[Hlen Hi]]%lookup_app_Some Hf.
    + exfalso. unfold cancel_batch_timer in Hi.
      destruct (batch_timer sc) as [j|] eqn:Hbt.
      * rewrite list_lookup_alter in Hi. case_decide as Hij.
        -- subst j. destruct (timers sc !! i); simplify_eq/=.
        -- specialize (Harmed i tm Hi Hf). congruence.
      * specialize (Harmed i tm Hi Hf). congruence.
    + f_equal. apply lookup_lt_Some in Hi. simpl in Hi. lia.
  - rewrite add_file_unrecognized by done. by intros [= <- <-].
Qed.

Lemma set_finished_one_armed i sc : one_armed sc → one_armed (set_finished i sc).
Proof.
  intros Harmed j tm. unfold set_finished. simpl.
  rewrite list_lookup_alter. case_decide as Hij.
  - subst j. destruct (timers sc !! i); by intros [= <-].
  - apply Harmed.
Qed.

Lemma step_one_armed (s s' : sys W) k :
  one_armed (shared s) → step k s s' → one_armed (shared s').
Proof.
  intros Harmed Hstep. destruct Hstep; simpl; try done.
  - by eapply add_file_one_armed.
  - by apply set_finished_one_armed.
  - by apply set_finished_one_armed.
Qed.

(** X1: in every state the converter can reach, a timer that is not
    finished is the one [batch_timer] refers to: at most one timer can
    still fire. *)
Theorem one_timer_armed (s : sys W) : reachable s → one_armed (shared s).
Proof.
  induction 1 as [st|s p f _ IH|s k s' _ IH Hstep].
  - intros i tm Hi. simpl in Hi. by rewrite lookup_nil in Hi.
  - exact IH.
  - by eapply step_one_armed.
Qed.

Lemma started_lookup before after j t :
  started before after !! j = Some t →
  ∃ i, t = TimerSleeping i ∧ (i < length (timers before)
                                  + (length (timers after) - length (timers before)))%nat.
Proof.
  unfold started. rewrite list_lookup_fmap.
  destruct (seq _ _ !! j) as [i|] eqn:Hi; simpl; [|done].
  intros [= <-]. exists i. split; [done|].
  apply lookup_seq in Hi. lia.
Qed.

Lemma step_timers_exist (s s' : sys W) k :
  timers_exist s → step k s s' → timers_exist s'.
Proof.
  intros Hex Hstep.
  destruct Hstep as [s now p f sc' st' Hk Hfree Hadd
                    | s i tm Hk Hi
                    | s i Hk Hfree Hempty
                    | s i Hk Hfree Hne
                    | s i r todo counts counts' st' Hk Hitem
                    | s i counts st' Hk Hrep]; intros j i'; simpl.
  - pose proof (add_file_timers_grow _ _ _ _ _ _ _ Hadd) as Hgrow.
    intros [Hj|Hj]; apply lookup_app_Some in Hj as [Hj|[_ Hj]].
    + apply list_lookup_insert_Some in Hj as [(_ & [=] & _)|[_ Hj]].
      specialize (Hex j i' (or_introl Hj)). lia.
    + apply started_lookup in Hj as (i0 & [= ->] & Hlt). lia.
    + apply list_lookup_insert_Some in Hj as [(_ & [=] & _)|[_ Hj]].
      specialize (Hex j i' (or_intror Hj)). lia.
    + by apply started_lookup in Hj as (i0 & [=] & _).
  - intros [Hj|Hj];
      apply list_lookup_insert_Some in Hj as [(_ & Heq & _)|[_ Hj]];
      try (by eapply Hex; eauto).
    + by destruct (finished tm).
    + destruct (finished tm); simplify_eq. by eapply lookup_lt_Some.
  - rewrite length_alter.
    intros [Hj|Hj];
      apply list_lookup_insert_Some in Hj as [(_ & [=] & _)|[_ Hj]];
      by eapply Hex; eauto.
  - intros [Hj|Hj];
      apply list_lookup_insert_Some in Hj as [(_ & [=] & _)|[_ Hj]];
      by eapply Hex; eauto.
  - intros [Hj|Hj];
      apply list_lookup_insert_Some in Hj as [(_ & [=] & _)|[_ Hj]];
      by eapply Hex; eauto.
  - rewrite length_alter.
    intros [Hj|Hj];
      apply list_lookup_insert_Some in Hj as [(_ & [=] & _)|[_ Hj]];
      by eapply Hex; eauto.
Qed.

Lemma reachable_timers_exist (s : sys W) : reachable s → timers_exist s.
Proof.
  induction 1 as [st|s p f _ IH|s k s' _ IH Hstep].
  - intros k i [Hk|Hk]; simpl in Hk; by rewrite lookup_nil in Hk.
  - intros k i. simpl.
    intros [Hk|Hk]; apply lookup_app_Some in Hk as [Hk|[_ Hk]];
      try (by eapply IH; eauto);
      by destruct (k - length (threads s))%nat; simplify_eq/=.
  - by eapply step_timers_exist.
Qed.

Lemma process_item_returns r counts (st : St W) :
  ∃ counts' st', process_item self r counts st = (inr counts', st').
Proof.
  rewrite process_item_eq.
  destruct (convert_file self r.1 r.2 st) as [[e|[]] st1]; eauto.
Qed.

(** A thread that needs no lock, or finds it free, or holds it, can
    step. *)
Lemma thread_can_step (s : sys W) k t :
  reachable s → threads s !! k = Some t → t ≠ Returned →
  lock s = None ∨ lock s = Some k ∨ (∃ i, t = TimerSleeping i) →
  ∃ s', step k s s'.
Proof.
  intros Hreach Hk Hlive Hlock.
  pose proof (reachable_lock_is_pass self s Hreach) as [Hrun Hheld].
  pose proof (reachable_timers_exist s Hreach) as Hex.
  destruct t as [p f|i|i|i todo counts|]; [| | | |done].
  - destruct Hlock as [Hfree|[Hmine|[i [=]]]].
    + destruct (add_file_returns 0 p f (shared s) (state s)) as (sc' & st' & Hadd).
      eexists. by eapply step_add.
    + destruct (Hheld k Hmine) as (t & Ht & Hr). by simplify_eq.
  - destruct (lookup_lt_is_Some_2 (timers (shared s)) i) as [tm Htm].
    { eapply Hex; eauto. }
    eexists. by eapply step_wake.
  - destruct Hlock as [Hfree|[Hmine|[i' [=]]]].
    + destruct (decide (pending_files (shared s) = ∅)).
      * eexists. by eapply step_batch_empty.
      * eexists. by eapply step_batch_enter.
    + destruct (Hheld k Hmine) as (t & Ht & Hr). by simplify_eq.
  - destruct todo as [|r todo].
    + eexists. eapply step_batch_exit; [done|apply report_eq].
    + destruct (process_item_returns r counts (state s)) as (c' & st' & Hitem).
      eexists. by eapply step_item.
Qed.

Lemma live_thread (l : list thread) :
  (∀ k t, l !! k = Some t → t = Returned)
  ∨ ∃ k t, l !! k = Some t ∧ t ≠ Returned.
Proof.
  induction l as [|t l [IH|(k & t' & Hk & Hlive)]].
  - left. intros k t Hk. by rewrite lookup_nil in Hk.
  - destruct t as [p f|i|i|i todo counts|];
      try (right; exists 0%nat; eexists; split; [reflexivity|done]).
    left. intros [|k] t Hk; simpl in Hk; [by simplify_eq|by eapply IH].
  - right. exists (S k), t'. by split.
Qed.

(** X2: the converter never deadlocks.  In every state it can reach,
    either every thread has returned or some thread can step; the holder
    of the lock, when there is one, is such a thread. *)
Theorem no_deadlock (s : sys W) :
  reachable s →
  (all_returned s ∨ ∃ k s', step k s s')
  ∧ (∀ k, lock s = Some k → ∃ s', step k s s').
Proof.
  intros Hreach.
  pose proof (reachable_lock_is_pass self s Hreach) as [Hrun Hheld].
  assert (Hholder : ∀ k, lock s = Some k → ∃ s', step k s s').
  { intros k Hk. destruct (Hheld k Hk) as (t & Ht & Hr).
    eapply thread_can_step; eauto. by destruct t. }
  split; [|done].
  destruct (lock s) as [h|] eqn:Hlock.
  - right. exists h. by apply Hholder.
  - destruct (live_thread (threads s)) as [Hall|(k & t & Hk & Hlive)].
    + by left.
    + right. exists k. eapply thread_can_step; eauto.
Qed.

End ThreadLife.

(** ** Requests in time *)

Section RequestsInTime.
Context {W : Type} `{!Externals W}.
Variable self : config.
Variable convert_time : request → nat.
Import Text PathFacts.

#[local] Abbreviation delay := (batch_wait_time self).
#[local] Abbreviation fire_due := (fire_due self convert_time).
#[local] Abbreviation call_step := (call_step self convert_time).
#[local] Abbreviation simulate := (simulate self convert_time).

Lemma fire_due_untouched t (s : sim W) : untouched (sc s) → fire_due t s = s.
Proof. intros (Ht & _). unfold FileConverter.fire_due. by rewrite Ht. Qed.

Lemma fire_due_finished t (s : sim W) d : tracked (sc s) d true → fire_due t s = s.
Proof.
  intros Htr. rewrite (fire_due_tracked _ _ _ _ _ _ Htr).
  destruct Htr as (fin & Ht & _ & _).
  apply timer_wake_idle. rewrite Ht, length_app. simpl length.
  rewrite Nat.add_1_r. simpl pred. rewrite list_lookup_middle by done.
  intros tm [= <-]. by left.
Qed.

Lemma enqueued_untouched now p f sc (st : St W) :
  lower (suffix p) ∈ supported_formats → untouched sc →
  tracked (enqueued self now p f sc st) (now + delay) false.
Proof.
  intros Hs (Ht & Hbt & _). unfold enqueued.
  rewrite add_file_recognized by done. simpl.
  unfold cancel_batch_timer. rewrite Hbt, Ht. exists []. by split.
Qed.

Lemma enqueued_unrecognized now p f sc (st : St W) :
  lower (suffix p) ∉ supported_formats → enqueued self now p f sc st = sc.
Proof. intros Hs. unfold enqueued. by rewrite add_file_unrecognized. Qed.

Lemma added_nonempty (r : request) (P : gset request) : {[ r ]} ∪ P ≠ ∅.
Proof.
  intros Heq. apply (not_elem_of_empty (C:=gset request) r).
  rewrite <- Heq. apply elem_of_union_l. by apply elem_of_singleton.
Qed.

(** Waking the timers keeps the scheduler settled and moves requests
    only from the pending set to a new batch. *)
Lemma fire_due_settled t (s : sim W) :
  settled (sc s) →
  settled (sc (fire_due t s))
  ∧ ⋃ batches (fire_due t s) ∪ pending_files (sc (fire_due t s))
    = ⋃ batches s ∪ pending_files (sc s)
  ∧ (Forall (λ b, b ≠ ∅) (batches s) →
     Forall (λ b, b ≠ ∅) (batches (fire_due t s)))
  ∧ (t = None → pending_files (sc (fire_due t s)) = ∅).
Proof.
  intros [Hun|(d & b & Htr & Hfin & Harmed)].
  - rewrite fire_due_untouched by done.
    split; [by left|]. split; [done|]. split; [done|]. by intros; apply Hun.
  - destruct b.
    + rewrite (fire_due_finished _ _ _ Htr).
      split; [right; by exists d, true|]. split; [done|]. split; [done|]. auto.
    + destruct (due t (mkTimer d false)) eqn:Hdue.
      * destruct (fire_due_fires self convert_time t s d Htr Hdue (Harmed eq_refl))
          as (sc' & -> & Hempty & Htr').
        simpl. split; [right; exists d, true; by rewrite Hempty|].
        split; [rewrite Hempty, union_list_app_L; simpl;
                by rewrite !union_empty_r_L|].
        split; [|done]. intros Hall. apply Forall_app. split; [done|].
        apply Forall_singleton. auto.
      * destruct t as [t|]; [|done]. simpl in Hdue. apply Nat.leb_gt in Hdue.
        rewrite (fire_due_not_yet self convert_time t s d Htr Hdue).
        split; [right; by exists d, false|]. split; [done|]. split; [done|]. done.
Qed.

Lemma accepted_recognized (c : nat * request) :
  lower (suffix c.2.1) ∈ supported_formats → accepted [c] = {[ c.2 ]}.
Proof.
  intros Hc. unfold accepted. rewrite filter_cons, filter_nil, decide_True by done.
  simpl. by rewrite union_empty_r_L.
Qed.

Lemma accepted_unrecognized (c : nat * request) :
  lower (suffix c.2.1) ∉ supported_formats → accepted [c] = ∅.
Proof.
  intros Hc. unfold accepted. by rewrite filter_cons, filter_nil, decide_False.
Qed.

Lemma call_step_settled (s : sim W) c :
  settled (sc s) →
  settled (sc (call_step s c))
  ∧ ⋃ batches (call_step s c) ∪ pending_files (sc (call_step s c))
    = ⋃ batches s ∪ pending_files (sc s) ∪ accepted [c]
  ∧ (Forall (λ b, b ≠ ∅) (batches s) →
     Forall (λ b, b ≠ ∅) (batches (call_step s c))).
Proof.
  intros Hset.
  destruct (fire_due_settled (Some c.1) s Hset) as (Hset1 & Hsame & Hall & _).
  rewrite call_step_eq. cbv zeta. simpl sc. simpl batches.
  set (s1 := fire_due (Some c.1) s) in *.
  destruct (decide (lower (suffix c.2.1) ∈ supported_formats)) as [Hc|Hc].
  - rewrite accepted_recognized, enqueued_pending by done.
    split; [|split; [|done]].
    + right. exists (c.1 `max` lock_free_at s1 + delay)%nat, false.
      split; [|split; [done|intros _; rewrite enqueued_pending by done;
                            apply added_nonempty]].
      destruct Hset1 as [Hun|(d & b & Htr & _)].
      * by apply enqueued_untouched.
      * by eapply add_file_tracked.
    + rewrite <- Hsame. destruct c as [t [p f]]. simpl.
      generalize (⋃ batches s1) (pending_files (sc s1)).
      intros B P. set_solver.
  - rewrite accepted_unrecognized, enqueued_unrecognized by done.
    split; [done|]. split; [|done]. rewrite Hsame. by rewrite union_empty_r_L.
Qed.

Lemma accepted_cons c calls : accepted (c :: calls) = accepted [c] ∪ accepted calls.
Proof.
  unfold accepted. rewrite !filter_cons, filter_nil.
  case_decide; simpl; [by rewrite union_empty_r_L|by rewrite union_empty_l_L].
Qed.

Lemma calls_settled calls : ∀ s : sim W,
  settled (sc s) →
  settled (sc (foldl call_step s calls))
  ∧ ⋃ batches (foldl call_step s calls) ∪ pending_files (sc (foldl call_step s calls))
    = ⋃ batches s ∪ pending_files (sc s) ∪ accepted calls
  ∧ (Forall (λ b, b ≠ ∅) (batches s) →
     Forall (λ b, b ≠ ∅) (batches (foldl call_step s calls))).
Proof.
  induction calls as [|c calls IH]; intros s Hset.
  - simpl. split; [done|]. split; [|done].
    unfold accepted. rewrite filter_nil. simpl. by rewrite union_empty_r_L.
  - destruct (call_step_settled s c Hset) as (Hset1 & Hone & Hall1).
    destruct (IH (call_step s c) Hset1) as (Hset2 & Hrest & Hall2).
    simpl foldl. split; [done|]. split; [|auto].
    rewrite Hrest, Hone, (accepted_cons c calls). by rewrite !(assoc_L (∪)).
Qed.

(** X3: whatever the arrival times and conversion times, no request is
    lost and none is invented: once every timer has run nothing is
    pending, the fired batches together hold exactly the requests that
    [add_file] accepted, and no batch is empty. *)
Theorem every_request_fired (w : W) (calls : list (nat * request)) :
  pending_files (sc (simulate w calls)) = ∅
  ∧ ⋃ batches (simulate w calls) = accepted calls
  ∧ Forall (λ b, b ≠ ∅) (batches (simulate w calls)).
Proof.
  assert (Hstart : settled (sc (start w))) by (by left).
  destruct (calls_settled calls (start w) Hstart) as (Hset & Hsum & Hall).
  destruct (fire_due_settled None _ Hset) as (_ & Hsame & Hall' & Hempty).
  unfold FileConverter.simulate.
  split; [by apply Hempty|]. split; [|by apply Hall', Hall].
  specialize (Hempty eq_refl). rewrite Hempty in Hsame.
  rewrite union_empty_r_L in Hsame. rewrite Hsame, Hsum. simpl.
  by rewrite !union_empty_l_L.
Qed.

Lemma call_step_quiet (s : sim W) t0 c :
  quiet_until s (t0 + delay) → (t0 ≤ c.1)%nat → (c.1 < t0 + delay)%nat →
  quiet_until (call_step s c) (t0 + delay)
  ∧ pending_files (sc (call_step s c)) = accepted [c] ∪ pending_files (sc s).
Proof.
  intros (Hb & Hlock & Harm) Hle Hlt.
  assert (Hfire : fire_due (Some c.1) s = s).
  { destruct Harm as [Hun|(d & Htr & Hd & _)].
    - by apply fire_due_untouched.
    - eapply (fire_due_not_yet self convert_time); [exact Htr|lia]. }
  rewrite call_step_eq, Hfire. cbv zeta. rewrite Hlock, Nat.max_0_r.
  unfold quiet_until. simpl.
  destruct (decide (lower (suffix c.2.1) ∈ supported_formats)) as [Hc|Hc].
  - rewrite accepted_recognized, !enqueued_pending by done.
    split; [|by destruct c as [t [p f]]].
    split; [done|]. split; [done|]. right. exists (c.1 + delay)%nat.
    split; [|split; [lia|apply added_nonempty]].
    destruct Harm as [Hun|(d & Htr & _)].
    + by apply enqueued_untouched.
    + by eapply add_file_tracked.
  - rewrite accepted_unrecognized, !enqueued_unrecognized by done.
    by rewrite union_empty_l_L.
Qed.

Lemma calls_quiet t0 calls : ∀ s : sim W,
  quiet_until s (t0 + delay) → in_window delay t0 calls →
  quiet_until (foldl call_step s calls) (t0 + delay)
  ∧ pending_files (sc (foldl call_step s calls))
    = accepted calls ∪ pending_files (sc s).
Proof.
  induction calls as [|c calls IH]; intros s Hq Hwin.
  - simpl. split; [done|]. unfold accepted. rewrite filter_nil. simpl.
    by rewrite union_empty_l_L.
  - apply Forall_cons in Hwin as [[Hle Hlt] Hwin].
    destruct (call_step_quiet s t0 c Hq Hle Hlt) as (Hq1 & Hp1).
    destruct (IH (call_step s c) Hq1 Hwin) as (Hq2 & Hp2).
    simpl foldl. split; [done|].
    rewrite Hp2, Hp1, (accepted_cons c calls).
    rewrite (comm_L (∪) (accepted [c]) (accepted calls)).
    by rewrite !(assoc_L (∪)).
Qed.

(** X4: calls that all arrive within one window shorter than the delay,
    whatever their paths, fire at most one batch: the requests that
    [add_file] accepted, all together, and no batch when it accepted
    none.  A path of no class neither joins the batch nor restarts the
    timer. *)
Theorem one_window_one_batch (w : W) (t0 : nat) (calls : list (nat * request)) :
  in_window delay t0 calls →
  batches (simulate w calls)
  = if decide (accepted calls = ∅) then [] else [accepted calls].
Proof.
  intros Hwin.
  assert (Hstart : quiet_until (start w) (t0 + delay)).
  { split; [done|]. split; [done|]. by left. }
  destruct (calls_quiet t0 calls (start w) Hstart Hwin)
    as ((Hb & _ & Harm) & Hp).
  simpl in Hp. rewrite union_empty_r_L in Hp.
  unfold FileConverter.simulate.
  destruct Harm as [Hun|(d & Htr & _ & Hne)].
  - rewrite fire_due_untouched by done. rewrite Hb.
    destruct Hun as (_ & _ & Hempty). rewrite Hp in Hempty.
    by rewrite decide_True.
  - destruct (fire_due_fires self convert_time None _ d Htr eq_refl Hne)
      as (sc' & -> & _ & _).
    simpl. rewrite Hb, Hp. rewrite Hp in Hne. by rewrite decide_False.
Qed.

End RequestsInTime.

(** ** Dispatch *)

Section DispatchMore.
Context {W : Type} `{!Externals W}.
Variable self : config.
Import Text PathFacts ContextMenus.

Lemma lower_char_idemp c : lower_char (lower_char c) = lower_char c.
Proof. by destruct c as [[] [] [] [] [] [] [] []]. Qed.

Lemma lower_idemp s : lower (lower s) = lower s.
Proof. induction s as [|c r IH]; [done|]. simpl. by rewrite lower_char_idemp, IH. Qed.

(** X5: the requested format is case-insensitive: [convert_file] does
    with a format what it does with the format in lower case. *)
Theorem format_case_insensitive (p : Path) (f : string) (st : St W) :
  convert_file self p (Some f) st = convert_file self p (Some (lower f)) st.
Proof.
  unfold convert_file, resolve_format. simpl falsy. rewrite is_empty_lower.
  destruct (is_empty f) eqn:He.
  - by destruct f.
  - cbv iota. by rewrite lower_idemp.
Qed.

Lemma classify_decides sfx c :
  classify sfx = Some c →
  match c with
  | Image => sfx ∈ image_formats
  | Audio => sfx ∉ image_formats ∧ sfx ∈ audio_formats
  | Video => sfx ∉ image_formats ∧ sfx ∉ audio_formats ∧ sfx ∈ video_formats
  end.
Proof. unfold classify. repeat case_decide; by intros [= <-]. Qed.

(** A request with a format of its class's table reaches the strategy of
    the class, with the source's suffix replaced. *)
Lemma convert_file_dispatch p f out c (st : St W) :
  classify (lower (suffix p)) = Some c →
  resolved_output_format p f = Some out →
  input_format p ≠ out →
  has_sep out = false →
  is_Some (format_mapping c !! out) →
  convert_file self p f st
  = logged (MsgFailedToConvert p) (strategy self c p (converted_path p out) out) st.
Proof.
  intros Hc (fmt & Hr & Hne & ->)%resolved_output_format_inv Hdiff Hsep Hmap.
  unfold convert_file, logged, try_except. rewrite Hr. cbv zeta iota beta.
  rewrite with_suffix_ok; [|by rewrite is_empty_lower|done|by eapply classified_name].
  apply String.eqb_neq in Hdiff. rewrite Hdiff.
  assert (Hsome : format_mapping c !! lower fmt ≠ None).
  { destruct Hmap as [x Hx]. by rewrite Hx. }
  apply classify_decides in Hc. destruct c; simpl in Hsome.
  - rewrite (decide_True (P:=_ ∈ image_formats)) by done.
    by rewrite decide_False.
  - destruct Hc as [Hi Ha].
    rewrite (decide_False (P:=_ ∈ image_formats)) by done.
    rewrite (decide_True (P:=_ ∈ audio_formats)) by done.
    by rewrite decide_False.
  - destruct Hc as (Hi & Ha & Hv).
    rewrite (decide_False (P:=_ ∈ image_formats)) by done.
    rewrite (decide_False (P:=_ ∈ audio_formats)) by done.
    rewrite (decide_True (P:=_ ∈ video_formats)) by done.
    by rewrite decide_False.
Qed.

Lemma mapped_plain c out :
  is_Some (format_mapping c !! out) →
  has_sep out = false ∧ contains "." out = false ∧ lower out = out
  ∧ is_empty out = false.
Proof.
  intros [x Hx]. destruct c; apply elem_of_list_to_map_2 in Hx;
    repeat (apply elem_of_cons in Hx as [[= -> ->]|Hx]; [done|]);
    by apply elem_of_nil in Hx.
Qed.

(** X6: an audio source, or a video source asked for a format other than
    GIF, is converted by exactly one invocation of the transcoder, on
    the resolved source and output paths with the arguments of the
    format; the conversion succeeds when the process exits with code 0,
    and fails with the process's error output, logged by the strategy
    and by [convert_file], otherwise. *)
Theorem direct_transcode_single_invocation
    (p : Path) (f : option string) (out : string) (c : media_class) (st : St W)
    (r : string + CompletedProcess) (w' : W) :
  classify (lower (suffix p)) = Some c →
  c ≠ Image →
  resolved_output_format p f = Some out →
  input_format p ≠ out →
  is_Some (format_mapping c !! out) →
  out ≠ "gif" →
  is_empty (ffmpeg_bin self) = false →
  let q := converted_path p out in
  let cmd := ffmpeg_cmd (ffmpeg_bin self) p q (transcode_args c out) (world st) in
  subprocess_run cmd (world st) = (r, w') →
  convert_file self p f st
  = if exited_ok r then
      (inr tt, mkSt w' (log st ++ [(INFO, MsgConverted p q)])
                    (history st ++ [CallSubprocess cmd]))
    else
      (inl (transcode_error r),
       mkSt w' (log st ++ failure_records c p (transcode_error r))
            (history st ++ [CallSubprocess cmd])).
Proof.
  intros Hc Hni Hr Hdiff Hmap Hgif Hbin q cmd Hrun.
  destruct (mapped_plain _ _ Hmap) as (Hsep & _ & _ & _).
  rewrite (convert_file_dispatch p f out c) by done. fold q.
  apply String.eqb_neq in Hgif.
  destruct c; [done| |]; unfold strategy, _convert_audio, _convert_video;
    rewrite ?Hgif; unfold logged, try_except, bind;
    (erewrite run_ffmpeg_command_eq by first [exact Hbin | exact Hrun]);
    fold cmd;
    (destruct r as [msg|res]; simpl;
     [|destruct (returncode res =? 0)%Z; simpl]);
    unfold logging, raise; simpl; by rewrite <- ?app_assoc.
Qed.

(** X7: when the tool a strategy starts with was not found, an audio or
    video conversion fails with that tool's "not found" error before any
    process is started: the world and the record of external
    invocations are as before. *)
Theorem missing_tool_fails_before_invocation
    (p : Path) (f : option string) (out : string) (c : media_class) (st : St W) :
  classify (lower (suffix p)) = Some c →
  c ≠ Image →
  resolved_output_format p f = Some out →
  input_format p ≠ out →
  is_Some (format_mapping c !! out) →
  is_empty (if probes_first c out then ffprobe_bin self else ffmpeg_bin self) = true →
  let e := ValueError (if probes_first c out then FFprobeNotFound
                       else FFmpegNotFound) in
  convert_file self p f st
  = (inl e,
     mkSt (world st)
          (log st ++ (if probes_first c out then [(ERROR, MsgDurationError e)] else [])
                  ++ failure_records c p e)
          (history st)).
Proof.
  intros Hc Hni Hr Hdiff Hmap Hbin e.
  destruct (mapped_plain _ _ Hmap) as (Hsep & _ & _ & _).
  rewrite (convert_file_dispatch p f out c) by done. subst e.
  destruct c; [done| |]; simpl in Hbin |- *.
  - unfold _convert_audio, logged, try_except, bind, run_ffmpeg_command.
    rewrite Hbin. unfold logging, raise. simpl. by rewrite <- ?app_assoc.
  - unfold _convert_video. destruct (String.eqb out "gif").
    + unfold _get_video_duration, logged, try_except, bind, run_ffprobe_command.
      rewrite Hbin. unfold logging, raise. simpl. by rewrite <- ?app_assoc.
    + unfold logged, try_except, bind, run_ffmpeg_command.
      rewrite Hbin. unfold logging, raise. simpl. by rewrite <- ?app_assoc.
Qed.

Local Ltac calls h :=
  exists h; simpl; rewrite <- ?app_assoc, ?app_nil_r;
  split; [done|split; [done|lia]].

Lemma convert_image_history i o fmt (st : St W) :
  ∃ h, history (_convert_image i o fmt st).2 = (history st ++ h)%list
       ∧ forallb is_image_call h = true ∧ (length h ≤ 2)%nat.
Proof.
  unfold _convert_image.
  destruct (image_format_mapping !! fmt) as [pil|]; [|calls (@nil call)].
  unfold bind at 1. unfold invoke at 1.
  destruct (image_open i (world st)) as [msg|img]; simpl;
    [calls [CallImageOpen i]|].
  destruct (String.eqb pil "ICO"); unfold bind, invoke; simpl;
    match goal with
    | |- context [image_save ?a ?b ?c ?d ?w] =>
        destruct (image_save a b c d w) as [[msg|[]] w1]
    end; simpl; eexists [_; _]; rewrite <- ?app_assoc;
    (split; [done|split; [done|simpl; lia]]).
Qed.

(** X8: the conversion of an image source does not depend on the
    converter's settings or on the tools it found, and what it invokes
    is the image library alone, at most twice: no process is started. *)
Theorem image_conversion_local
    (self' : config) (p : Path) (f : option string) (st : St W) :
  lower (suffix p) ∈ image_formats →
  convert_file self p f st = convert_file self' p f st
  ∧ ∃ h, history (convert_file self p f st).2 = (history st ++ h)%list
         ∧ forallb is_image_call h = true ∧ (length h ≤ 2)%nat.
Proof.
  intros Hi. split.
  - unfold convert_file.
    by destruct (decide (lower (suffix p) ∈ image_formats)).
  - unfold convert_file. rewrite logged_history.
    destruct (resolve_format p f) as [fmt|]; [|calls (@nil call)].
    cbv zeta.
    destruct (with_suffix p ("." ++ lower fmt)) as [q|]; [|calls (@nil call)].
    destruct (String.eqb (input_format p) (lower fmt)); [calls (@nil call)|].
    rewrite (decide_True (P:=lower (suffix p) ∈ image_formats)) by done.
    case_decide; [calls (@nil call)|].
    apply convert_image_history.
Qed.

Lemma class_extensions_classify c ext :
  ext ∈ class_extensions c → classify ext = Some c.
Proof.
  destruct c; simpl; unfold image_formats, audio_formats, video_formats;
    rewrite !elem_of_union, !elem_of_singleton; intros H;
    repeat destruct H as [H|H]; by subst ext.
Qed.

Lemma classify_class_extensions c ext :
  classify ext = Some c → ext ∈ class_extensions c.
Proof. intros H%classify_decides. destruct c; simpl; tauto. Qed.

(** The format named by an extension is in the table of the extension's
    class. *)
Lemma own_format_mapped c ext :
  ext ∈ class_extensions c → is_Some (format_mapping c !! drop1 ext).
Proof.
  destruct c; simpl; unfold image_formats, audio_formats, video_formats;
    rewrite !elem_of_union, !elem_of_singleton; intros H;
    repeat destruct H as [H|H]; subst ext; by eexists.
Qed.

(** The format named by an extension is in the table of no other class,
    [gif] in the table of videos apart. *)
Lemma foreign_format_unmapped c c' ext :
  ext ∈ class_extensions c' → c ≠ c' → ¬ (c = Video ∧ ext = ".gif") →
  format_mapping c !! drop1 ext = None.
Proof.
  intros H Hne Hgif.
  destruct c'; simpl in H; unfold image_formats, audio_formats, video_formats in H;
    rewrite !elem_of_union, !elem_of_singleton in H;
    repeat destruct H as [H|H]; subst ext;
    destruct c; try done; by destruct Hgif.
Qed.

Lemma extension_plain c ext :
  ext ∈ class_extensions c →
  is_empty (drop1 ext) = false ∧ has_sep (drop1 ext) = false
  ∧ lower (drop1 ext) = drop1 ext ∧ lower ext = ext.
Proof.
  intros [x Hx]%own_format_mapped. destruct (mapped_plain c (drop1 ext)) as (?&?&?&?);
    [by eexists|].
  repeat split; try done.
  destruct c; simpl in *; clear -Hx.
Abort.

End DispatchMore.
